(** * Codecs: tuple, hidden prefix and base-X string codecs

    A shallow embedding of

      - [packages/codecs-data-structures/src/tuple.ts]
      - the hidden-prefix combinator of the same package
      - [packages/codecs-strings/src/base58.ts]

    together with the parts of [@solana/codecs-core], [./utils],
    [./assertions] and [./baseX] they call.

    Conventions.  A [Uint8Array] is a list of bytes, a byte being a natural
    number below 256 kept in [N].  Sizes and offsets are JavaScript numbers
    that only ever hold non-negative integers; they are [nat] here.  A
    [bigint] is an [N] (the code never produces a negative one).  A thrown
    exception is the [Err] outcome, and since a [write] mutates the buffer
    it was handed even when it throws later, a [write] returns the buffer
    together with its outcome. *)

From Stdlib Require Import Ascii String.
From Stdlib Require Import List NArith Arith Lia Bool.
Import ListNotations.

Set Implicit Arguments.

(** ** Errors and outcomes *)

Inductive Error : Type :=
  | INVALID_NUMBER_OF_ITEMS (codecDescription : string) (expected actual : nat)
  | INVALID_ALPHABET_CHARACTER (character : ascii) (position : nat)
  | NO_CHARACTER_FOR_DIGIT (digit : N)
  | DOES_NOT_TERMINATE
  | OTHER_ERROR (name : string).

Inductive result (A : Type) : Type :=
  | Ok (a : A)
  | Err (e : Error).

Arguments Ok {A} a.
Arguments Err {A} e.

Definition bind {A B : Type} (r : result A) (k : A -> result B) : result B :=
  match r with
  | Ok a => k a
  | Err e => Err e
  end.

Notation "x <- r ;; k" := (bind r (fun x => k))
  (at level 61, r at next level, right associativity).

Definition byte := N.
Definition Bytes := list byte.

(** ** [@solana/codecs-core] *)

Module Core.

(** Modelled from the spec: the size descriptor of an encoder, which is
    missing from the sources at hand (it lives in [@solana/codecs-core]).
    "Every encoder exposes: a size descriptor (fixed size, or a per-value
    size function plus optional max)". *)
Inductive EncoderSize (T : Type) : Type :=
  | FixedSize (fixedSize : nat)
  | VariableSize (getSizeFromValue : T -> nat) (maxSize : option nat).

Arguments FixedSize {T} fixedSize.

(** Modelled from the spec: the size descriptor of a decoder (missing,
    [@solana/codecs-core]); a decoder has no value to size. *)
Inductive DecoderSize : Type :=
  | DFixedSize (fixedSize : nat)
  | DVariableSize (maxSize : option nat).

(** Modelled from the spec: the [Encoder] type (missing,
    [@solana/codecs-core]): "a size descriptor ..., and a
    [write(value, buffer, offset) -> newOffset] operation" that mutates
    "the caller-supplied output buffer in place". *)
Record Encoder (T : Type) : Type := {
  encoderSize : EncoderSize T;
  write : T -> Bytes -> nat -> Bytes * result nat
}.

(** Modelled from the spec: the [Decoder] type (missing,
    [@solana/codecs-core]): "a size descriptor, and a
    [read(buffer, offset) -> (value, newOffset)] operation". *)
Record Decoder (T : Type) : Type := {
  decoderSize : DecoderSize;
  read : Bytes -> nat -> result (T * nat)
}.

(** Modelled from the spec: the [Codec] type (missing,
    [@solana/codecs-core]): "an Encoder<TFrom> and Decoder<TTo>
    combined". *)
Record Codec (TFrom TTo : Type) : Type := {
  codecEncoder : Encoder TFrom;
  codecDecoder : Decoder TTo
}.

(** Modelled from the spec: [getEncodedSize] (missing,
    [@solana/codecs-core]): the fixed size, or the per-value size. *)
Definition getEncodedSize {T} (value : T) (encoder : Encoder T) : nat :=
  match encoderSize encoder with
  | FixedSize fixedSize => fixedSize
  | VariableSize getSizeFromValue _ => getSizeFromValue value
  end.

(** Modelled from the spec: the [encode] function that [createEncoder]
    (missing, [@solana/codecs-core]) adds to an encoder: serialize "into
    bytes at a given offset in a pre-allocated buffer", the buffer being
    one of the encoded size, filled with zeroes, and the offset 0. *)
Definition encode {T} (encoder : Encoder T) (value : T) : result Bytes :=
  let bytes := repeat 0%N (getEncodedSize value encoder) in
  match write encoder value bytes 0 with
  | (bytes', Ok _) => Ok bytes'
  | (_, Err e) => Err e
  end.

(** Modelled from the spec: the [decode] function that [createDecoder]
    (missing, [@solana/codecs-core]) adds to a decoder: read at offset 0
    and keep the value. *)
Definition decode {T} (decoder : Decoder T) (bytes : Bytes) : result T :=
  match read decoder bytes 0 with
  | Ok (value, _) => Ok value
  | Err e => Err e
  end.

(** Modelled from the spec: [transformEncoder] (missing,
    [@solana/codecs-core]): "a pure mapping function applied before
    write ..., without altering the byte-level size or behavior". *)
Definition transformEncoder {TOld TNew} (encoder : Encoder TOld)
    (unmap : TNew -> TOld) : Encoder TNew :=
  {| encoderSize :=
       match encoderSize encoder with
       | FixedSize fixedSize => FixedSize fixedSize
       | VariableSize getSizeFromValue maxSize =>
           VariableSize (fun value => getSizeFromValue (unmap value)) maxSize
       end;
     write := fun value bytes offset => write encoder (unmap value) bytes offset |}.

(** Modelled from the spec: [transformDecoder] (missing,
    [@solana/codecs-core]): "a pure mapping function applied ... after
    read". *)
Definition transformDecoder {TOld TNew} (decoder : Decoder TOld)
    (map : TOld -> TNew) : Decoder TNew :=
  {| decoderSize := decoderSize decoder;
     read := fun bytes offset =>
       match read decoder bytes offset with
       | Ok (value, newOffset) => Ok (map value, newOffset)
       | Err e => Err e
       end |}.

(** Modelled from the spec: [combineCodec] (missing,
    [@solana/codecs-core]): "[combineCodec(encoder, decoder)] pairs
    them". *)
Definition combineCodec {TFrom TTo} (encoder : Encoder TFrom)
    (decoder : Decoder TTo) : Codec TFrom TTo :=
  {| codecEncoder := encoder; codecDecoder := decoder |}.

End Core.

Import Core.

(** ** [./utils] and [./assertions] *)

Module Utils.

(** Modelled from the spec: [getFixedSize] (missing, [./utils]): the exact
    size a child reports, [None] (JavaScript [null]) when the child is
    not fixed. *)
Definition getFixedSize {T} (size : EncoderSize T) : option nat :=
  match size with
  | FixedSize fixedSize => Some fixedSize
  | VariableSize _ _ => None
  end.

(** Modelled from the spec: [getMaxSize] (missing, [./utils]): the finite
    bound a child reports, which for a fixed child is its exact size;
    [None] when the child is unbounded. *)
Definition getMaxSize {T} (size : EncoderSize T) : option nat :=
  match size with
  | FixedSize fixedSize => Some fixedSize
  | VariableSize _ maxSize => maxSize
  end.

(** Modelled from the spec: [getFixedSize] (missing, [./utils]) when what
    it is given is a decoder. *)
Definition getDecoderFixedSize (size : DecoderSize) : option nat :=
  match size with
  | DFixedSize fixedSize => Some fixedSize
  | DVariableSize _ => None
  end.

(** Modelled from the spec: [getMaxSize] (missing, [./utils]) when what it
    is given is a decoder. *)
Definition getDecoderMaxSize (size : DecoderSize) : option nat :=
  match size with
  | DFixedSize fixedSize => Some fixedSize
  | DVariableSize maxSize => maxSize
  end.

(** Modelled from the spec: [sumCodecSizes] (missing, [./utils]), the
    spec's [sumFixedSizes] and [sumMaxSizes]: "if every child reports an
    exact size, sum them; if any child is non-fixed, result is not
    fixed", and the same for the maxima. *)
Definition sumCodecSizes (sizes : list (option nat)) : option nat :=
  fold_left
    (fun all size =>
       match all, size with
       | Some a, Some s => Some (a + s)
       | _, _ => None
       end)
    sizes (Some 0).

(** Modelled from the spec: [assertValidNumberOfItemsForCodec] (missing,
    [./assertions]): "fails with an invalid item count condition
    otherwise, reporting expected vs. actual counts". *)
Definition assertValidNumberOfItemsForCodec (codecDescription : string)
    (expected actual : nat) : result unit :=
  if Nat.eqb expected actual then Ok tt
  else Err (INVALID_NUMBER_OF_ITEMS codecDescription expected actual).

End Utils.

Import Utils.

(** ** [tuple.ts] *)

Module Tuple.

(** One call of an item's [write] or [read] made by a tuple: which item,
    at which offset, and the offset the call returned, if it returned. *)
Record Call : Type := {
  callIndex : nat;
  callOffset : nat;
  callReturn : option nat
}.

Section Items.

(** JavaScript values are untyped: all the items of a tuple are values
    of one type [V], one of which is [undefined]. *)
Variable V : Type.
Variable undefined : V.

(** The body of [write], lines 93-95:
    [items.forEach((item, index) => { offset = item.write(value[index], bytes, offset); })]
    from item [index] on, with the log of the calls it makes.  An item
    that throws ends the loop, with the buffer as that item left it. *)
Fixpoint writeItems (items : list (Encoder V)) (index : nat) (value : list V)
    (bytes : Bytes) (offset : nat) : list Call * (Bytes * result nat) :=
  match items with
  | [] => ([], (bytes, Ok offset))
  | item :: rest =>
      match write item (nth index value undefined) bytes offset with
      | (bytes', Ok offset') =>
          let '(calls, out) := writeItems rest (S index) value bytes' offset' in
          ({| callIndex := index; callOffset := offset; callReturn := Some offset' |} :: calls,
           out)
      | (bytes', Err e) =>
          ([{| callIndex := index; callOffset := offset; callReturn := None |}],
           (bytes', Err e))
      end
  end.

(** [write] of the tuple encoder, lines 91-97, with its log. *)
Definition tupleWrite (items : list (Encoder V)) (value : list V)
    (bytes : Bytes) (offset : nat) : list Call * (Bytes * result nat) :=
  match assertValidNumberOfItemsForCodec "tuple" (length items) (length value) with
  | Err e => ([], (bytes, Err e))
  | Ok _ => writeItems items 0 value bytes offset
  end.

(** [getSizeFromValue] of the tuple encoder, lines 86-87:
    [items.map((item, index) => getEncodedSize(value[index], item)).reduce((all, one) => all + one, 0)]. *)
Fixpoint sizeOfItems (items : list (Encoder V)) (index : nat) (value : list V) : list nat :=
  match items with
  | [] => []
  | item :: rest =>
      getEncodedSize (nth index value undefined) item :: sizeOfItems rest (S index) value
  end.

Definition tupleSizeFromValue (items : list (Encoder V)) (value : list V) : nat :=
  fold_left (fun all one => all + one) (sizeOfItems items 0 value) 0.

(** [getTupleEncoder], lines 76-99. *)
Definition getTupleEncoder (items : list (Encoder V)) : Encoder (list V) :=
  let fixedSize := sumCodecSizes (map (fun item => getFixedSize (encoderSize item)) items) in
  let maxSize := sumCodecSizes (map (fun item => getMaxSize (encoderSize item)) items) in
  {| encoderSize :=
       match fixedSize with
       | None => VariableSize (tupleSizeFromValue items) maxSize
       | Some fixedSize => FixedSize fixedSize
       end;
     write := fun value bytes offset => snd (tupleWrite items value bytes offset) |}.

(** The body of [read], lines 143-149: the values pushed so far are
    [values]; an item that throws ends the loop. *)
Fixpoint readItems (items : list (Decoder V)) (index : nat) (bytes : Bytes)
    (offset : nat) (values : list V) : list Call * result (list V * nat) :=
  match items with
  | [] => ([], Ok (values, offset))
  | item :: rest =>
      match read item bytes offset with
      | Ok (newValue, newOffset) =>
          let '(calls, out) := readItems rest (S index) bytes newOffset (values ++ [newValue]) in
          ({| callIndex := index; callOffset := offset; callReturn := Some newOffset |} :: calls,
           out)
      | Err e =>
          ([{| callIndex := index; callOffset := offset; callReturn := None |}], Err e)
      end
  end.

Definition tupleRead (items : list (Decoder V)) (bytes : Bytes) (offset : nat)
    : list Call * result (list V * nat) :=
  readItems items 0 bytes offset [].

(** [getTupleDecoder], lines 133-152. *)
Definition getTupleDecoder (items : list (Decoder V)) : Decoder (list V) :=
  let fixedSize := sumCodecSizes (map (fun item => getDecoderFixedSize (decoderSize item)) items) in
  let maxSize := sumCodecSizes (map (fun item => getDecoderMaxSize (decoderSize item)) items) in
  {| decoderSize :=
       match fixedSize with
       | None => DVariableSize maxSize
       | Some fixedSize => DFixedSize fixedSize
       end;
     read := fun bytes offset => snd (tupleRead items bytes offset) |}.

(** [getTupleCodec], lines 204-211. *)
Definition getTupleCodec (items : list (Codec V V)) : Codec (list V) (list V) :=
  combineCodec (getTupleEncoder (map (@codecEncoder V V) items))
               (getTupleDecoder (map (@codecDecoder V V) items)).

End Items.

End Tuple.

Import Tuple.

(** ** The hidden-prefix combinator *)

Module HiddenPrefix.

Section Prefixes.

Variable V : Type.
Variable undefined : V.

(** The value handed to the tuple encoder, line 63:
    [[...prefixedEncoders.map(() => undefined), value]]. *)
Definition hiddenValue (prefixedEncoders : list (Encoder V)) (value : V) : list V :=
  map (fun _ => undefined) prefixedEncoders ++ [value].

(** [getHiddenPrefixEncoder], lines 57-65. *)
Definition getHiddenPrefixEncoder (encoder : Encoder V)
    (prefixedEncoders : list (Encoder V)) : Encoder V :=
  transformEncoder
    (getTupleEncoder undefined (prefixedEncoders ++ [encoder]))
    (hiddenValue prefixedEncoders).

(** [getHiddenPrefixDecoder], lines 103-111; [tuple[tuple.length - 1]]
    of an empty array is [undefined]. *)
Definition getHiddenPrefixDecoder (decoder : Decoder V)
    (prefixedDecoders : list (Decoder V)) : Decoder V :=
  transformDecoder
    (getTupleDecoder (prefixedDecoders ++ [decoder]))
    (fun tuple => nth (length tuple - 1) tuple undefined).

(** [getHiddenPrefixCodec], lines 175-180. *)
Definition getHiddenPrefixCodec (codec : Codec V V)
    (prefixedCodecs : list (Codec V V)) : Codec V V :=
  combineCodec
    (getHiddenPrefixEncoder (codecEncoder codec) (map (@codecEncoder V V) prefixedCodecs))
    (getHiddenPrefixDecoder (codecDecoder codec) (map (@codecDecoder V V) prefixedCodecs)).

End Prefixes.

End HiddenPrefix.

Import HiddenPrefix.

(** ** [./baseX] and [base58.ts] *)

Module BaseX.

(** A JavaScript string, character by character. *)
Definition JsString := list ascii.

(** Modelled from the spec: [Uint8Array.prototype.set], used by the leaf
    encoders (missing, [./baseX] and [@solana/codecs-core]) to write
    "into bytes at a given offset in a pre-allocated buffer"; a source
    that does not fit is a [RangeError] and leaves the buffer as it was. *)
Definition setBytes (bytes source : Bytes) (offset : nat) : Bytes * result nat :=
  if offset + length source <=? length bytes
  then (firstn offset bytes ++ source ++ skipn (offset + length source) bytes,
        Ok (offset + length source))
  else (bytes, Err (OTHER_ERROR "RangeError")).

(** Modelled from the spec: "the alphabet's character-to-digit mapping"
    (missing, [./baseX]): the position of the character in the
    alphabet. *)
Fixpoint indexOf (alphabet : JsString) (char : ascii) : option nat :=
  match alphabet with
  | [] => None
  | a :: rest =>
      if Ascii.eqb a char then Some 0 else option_map S (indexOf rest char)
  end.

(** Modelled from the spec: the check of the input of the encoder
    (missing, [./baseX]): "input string contains a character outside the
    configured alphabet - reports the offending character and its
    position"; the string is scanned from its first character, which is
    at [position]. *)
Fixpoint findInvalidCharacter (alphabet value : JsString) (position : nat)
    : option (ascii * nat) :=
  match value with
  | [] => None
  | char :: rest =>
      match indexOf alphabet char with
      | None => Some (char, position)
      | Some _ => findInvalidCharacter alphabet rest (S position)
      end
  end.

(** Modelled from the spec: the digit of a character (missing,
    [./baseX]), for a character that passed the check. *)
Definition digitOf (alphabet : JsString) (char : ascii) : N :=
  match indexOf alphabet char with
  | Some index => N.of_nat index
  | None => 0
  end.

(** Modelled from the spec: [getBigIntFromBaseX] (missing, [./baseX]):
    "treat the input string as a base-B numeral (most significant
    character first)". *)
Definition getBigIntFromBaseX (value alphabet : JsString) : N :=
  let base := N.of_nat (length alphabet) in
  fold_left (fun sum char => sum * base + digitOf alphabet char)%N value 0%N.

(** Modelled from the spec: the loop of "repeated big-integer division"
    (missing, [./baseX]):
    [while (value > 0n) { digits.unshift(value % base); value /= base; }].
    [None] stands for a loop that is still running when the fuel is
    spent. *)
Fixpoint divideRepeatedly (fuel : nat) (base value : N) (digits : list N)
    : option (list N) :=
  match fuel with
  | O => None
  | S fuel' =>
      if (0 <? value)%N
      then divideRepeatedly fuel' base (value / base)%N ((value mod base)%N :: digits)
      else Some digits
  end.

(** Modelled from the spec: the digits of a number (missing, [./baseX]),
    by the loop above, "most significant first".  The fuel is one more
    step than [value] has bits: enough for every base from 2 on
    ([toDigits_terminates]); in base 1 the loop does not end on a number
    other than 0. *)
Definition toDigits (base value : N) : option (list N) :=
  divideRepeatedly (S (N.to_nat (N.size value))) base value [].

(** Modelled from the spec: "count leading 0x00 bytes" and zero digits
    (missing, [./baseX]): the length of the run of [zero] that [items]
    starts with. *)
Fixpoint countLeading {A : Type} (eqb : A -> A -> bool) (zero : A) (items : list A) : nat :=
  match items with
  | [] => 0
  | item :: rest => if eqb zero item then S (countLeading eqb zero rest) else 0
  end.

(** Modelled from the spec: the number of "leading occurrence[s] of the
    alphabet's zero-digit character" (missing, [./baseX]); the zero digit
    is the first character of the alphabet. *)
Definition leadingZeroes (alphabet value : JsString) : nat :=
  match alphabet with
  | [] => 0
  | zero :: _ => countLeading Ascii.eqb zero value
  end.

(** Modelled from the spec: the bytes of a string (missing, [./baseX]).
    "treat the input string as a base-B numeral ... (fails with an
    invalid character condition for characters outside the alphabet);
    convert via repeated big-integer division by 256 to produce a
    big-endian byte sequence with no superfluous leading zero bytes;
    then re-prepend one 0x00 byte for every leading occurrence of the
    alphabet's zero-digit character in the input". *)
Definition encodeBaseX (alphabet value : JsString) : result Bytes :=
  match findInvalidCharacter alphabet value 0 with
  | Some (char, position) => Err (INVALID_ALPHABET_CHARACTER char position)
  | None =>
      match toDigits 256 (getBigIntFromBaseX value alphabet) with
      | None => Err DOES_NOT_TERMINATE
      | Some tailBytes => Ok (repeat 0%N (leadingZeroes alphabet value) ++ tailBytes)
      end
  end.

(** Modelled from the spec: "mapping digits back to alphabet characters"
    (missing, [./baseX]); a digit the alphabet has no character for, which
    takes an empty alphabet, is reported. *)
Fixpoint charsOfDigits (alphabet : JsString) (digits : list N) : result JsString :=
  match digits with
  | [] => Ok []
  | digit :: rest =>
      match nth_error alphabet (N.to_nat digit) with
      | None => Err (NO_CHARACTER_FOR_DIGIT digit)
      | Some char => tail <- charsOfDigits alphabet rest ;; Ok (char :: tail)
      end
  end.

(** Modelled from the spec: the string of some bytes (missing,
    [./baseX]).  "count leading 0x00 bytes in the input and remember
    this count; convert the remaining bytes (big-endian) into a
    big-integer; convert that integer into a base-B digit sequence via
    repeated division by B, mapping digits back to alphabet characters,
    most significant first; prepend one alphabet zero-digit character
    per counted leading zero byte". *)
Definition decodeBaseX (alphabet : JsString) (bytes : Bytes) : result JsString :=
  let trailIndex := countLeading N.eqb 0%N bytes in
  let base10Number := fold_left (fun sum byte => sum * 256 + byte)%N (skipn trailIndex bytes) 0%N in
  match toDigits (N.of_nat (length alphabet)) base10Number with
  | None => Err DOES_NOT_TERMINATE
  | Some digits => charsOfDigits alphabet (repeat 0%N trailIndex ++ digits)
  end.

(** Modelled from the spec: [getBaseXEncoder] (missing, [./baseX]), of
    "unbounded/variable" size: the bytes of the string are set at the
    offset. *)
Definition getBaseXEncoder (alphabet : JsString) : Encoder JsString :=
  {| encoderSize :=
       VariableSize
         (fun value =>
            match encodeBaseX alphabet value with
            | Ok encoded => length encoded
            | Err _ => 0
            end)
         None;
     write := fun value bytes offset =>
       match encodeBaseX alphabet value with
       | Ok encoded => setBytes bytes encoded offset
       | Err e => (bytes, Err e)
       end |}.

(** Modelled from the spec: [getBaseXDecoder] (missing, [./baseX]), of
    "unbounded/variable" size: the input is all that follows the
    offset. *)
Definition getBaseXDecoder (alphabet : JsString) : Decoder JsString :=
  {| decoderSize := DVariableSize None;
     read := fun bytes offset =>
       value <- decodeBaseX alphabet (skipn offset bytes) ;;
       Ok (value, length bytes) |}.

(** [base58.ts], line 3. *)
Definition alphabet : JsString :=
  list_ascii_of_string "123456789ABCDEFGHJKLMNPQRSTUVWXYZabcdefghijkmnopqrstuvwxyz".

(** [base58.ts], lines 24, 44 and 87. *)
Definition getBase58Encoder : Encoder JsString := getBaseXEncoder alphabet.
Definition getBase58Decoder : Decoder JsString := getBaseXDecoder alphabet.
Definition getBase58Codec : Codec JsString JsString :=
  combineCodec (getBaseXEncoder alphabet) (getBaseXDecoder alphabet).

End BaseX.

Import BaseX.

(** ** Leaf codecs

    The combinators take their leaves from other packages.  The ones below
    are the leaves of the spec's concrete scenarios, over a small type of
    JavaScript values. *)

Module Leaves.

Inductive JsValue : Type :=
  | JsUndefined
  | JsNumber (n : N)
  | JsText (s : JsString).

Definition bytesEqb (a b : Bytes) : bool :=
  (length a =? length b) && forallb (fun p => N.eqb (fst p) (snd p)) (combine a b).

(** Modelled from the spec: a "constant-byte" prefix codec (missing,
    [./constant]): "encoding writes fixed bytes for it, decoding discards
    bytes for it". *)
Definition getConstantEncoder (constant : Bytes) : Encoder JsValue :=
  {| encoderSize := FixedSize (length constant);
     write := fun _ bytes offset => setBytes bytes constant offset |}.

(** Modelled from the spec: the decoder of a constant (missing,
    [./constant]); it checks the bytes it skips. *)
Definition getConstantDecoder (constant : Bytes) : Decoder JsValue :=
  {| decoderSize := DFixedSize (length constant);
     read := fun bytes offset =>
       if bytesEqb (firstn (length constant) (skipn offset bytes)) constant
       then Ok (JsUndefined, offset + length constant)
       else Err (OTHER_ERROR "INVALID_CONSTANT") |}.

Definition getConstantCodec (constant : Bytes) : Codec JsValue JsValue :=
  combineCodec (getConstantEncoder constant) (getConstantDecoder constant).

(** Modelled from the spec: a "single-byte unsigned integer codec"
    (missing, [@solana/codecs-numbers]). *)
Definition getU8Encoder : Encoder JsValue :=
  {| encoderSize := FixedSize 1;
     write := fun value bytes offset =>
       match value with
       | JsNumber n =>
           if (n <? 256)%N then setBytes bytes [n] offset
           else (bytes, Err (OTHER_ERROR "NUMBER_OUT_OF_RANGE"))
       | _ => (bytes, Err (OTHER_ERROR "TypeError"))
       end |}.

(** Modelled from the spec: the decoder of a single byte (missing,
    [@solana/codecs-numbers]). *)
Definition getU8Decoder : Decoder JsValue :=
  {| decoderSize := DFixedSize 1;
     read := fun bytes offset =>
       match nth_error bytes offset with
       | Some b => Ok (JsNumber b, S offset)
       | None => Err (OTHER_ERROR "NOT_ENOUGH_BYTES")
       end |}.

Definition getU8Codec : Codec JsValue JsValue :=
  combineCodec getU8Encoder getU8Decoder.

Definition textOf (value : JsValue) : JsString :=
  match value with
  | JsText s => s
  | _ => []
  end.

(** Modelled from the spec: a "UTF-8 string codec" (missing,
    [./utf8]), on strings of one-byte characters: of variable size, it
    reads up to the end of the bytes. *)
Definition getUtf8Encoder : Encoder JsValue :=
  {| encoderSize := VariableSize (fun value => length (textOf value)) None;
     write := fun value bytes offset =>
       setBytes bytes (map N_of_ascii (textOf value)) offset |}.

(** Modelled from the spec: the decoder of a string (missing, [./utf8]):
    all the bytes from the offset on. *)
Definition getUtf8Decoder : Decoder JsValue :=
  {| decoderSize := DVariableSize None;
     read := fun bytes offset =>
       Ok (JsText (map ascii_of_N (skipn offset bytes)), length bytes) |}.

Definition getUtf8Codec : Codec JsValue JsValue :=
  combineCodec getUtf8Encoder getUtf8Decoder.

End Leaves.

Import Leaves.

(** ** What a leaf owes the combinators

    The tuple hands each item the whole buffer and an offset and trusts
    what comes back.  The contract below is the one of the spec's data
    model: an encoder serializes a value "into bytes at a given offset",
    "each item fully determining its own byte length independent of
    neighbors"; a decoder deserializes "from bytes starting at a given
    offset". *)

Section Contracts.

Variable T : Type.

(** For [value], [encoder] writes [piece], these bytes and no others,
    where it is told to, and returns the offset that follows them; the
    size it announces for [value] is the length of [piece]. *)
Definition WritesPiece (encoder : Encoder T) (value : T) (piece : Bytes) : Prop :=
  getEncodedSize value encoder = length piece /\
  (forall before slot after,
      length slot = length piece ->
      write encoder value (before ++ slot ++ after) (length before)
      = (before ++ piece ++ after, Ok (length before + length piece))).

Definition LawfulOn (encoder : Encoder T) (value : T) : Prop :=
  exists piece, WritesPiece encoder value piece.

(** One piece per item, each item writing its piece for its element. *)
Inductive WritesAll : list (Encoder T) -> list T -> list Bytes -> Prop :=
  | WritesAll_nil : WritesAll [] [] []
  | WritesAll_cons item element piece items elements pieces :
      WritesPiece item element piece ->
      WritesAll items elements pieces ->
      WritesAll (item :: items) (element :: elements) (piece :: pieces).

(** [decoder] reads relative to the offset: what it reads at offset 0 it
    also reads, shifted, when other bytes come first. *)
Definition ReadsRelative (decoder : Decoder T) : Prop :=
  forall before bytes value newOffset,
    read decoder bytes 0 = Ok (value, newOffset) ->
    read decoder (before ++ bytes) (length before) = Ok (value, length before + newOffset).

(** The decoder of a prefix "consume[s] the correct number of bytes":
    over the bytes its encoder wrote for [hidden], wherever they are, it
    succeeds and returns the offset that follows them. *)
Definition ConsumesPrefix (hidden : T) (codec : Codec T T) : Prop :=
  forall prefix, encode (codecEncoder codec) hidden = Ok prefix ->
  forall before after,
    exists ignored,
      read (codecDecoder codec) (before ++ prefix ++ after) (length before)
      = Ok (ignored, length before + length prefix).

End Contracts.

(** The offsets of the calls a tuple made, in the order it made them. *)
Definition callOffsets (calls : list Call) : list nat := map callOffset calls.

(** Each call starts where the previous one returned, the first at
    [offset], and the calls are those of items [index], [index + 1], ... *)
Fixpoint Chained (index offset : nat) (calls : list Call) : Prop :=
  match calls with
  | [] => True
  | call :: rest =>
      callIndex call = index /\ callOffset call = offset /\
      match callReturn call with
      | Some offset' => Chained (S index) offset' rest
      | None => rest = []
      end
  end.

(** The offset the last call returned, [offset] when there was no call. *)
Fixpoint lastReturn (offset : nat) (calls : list Call) : option nat :=
  match calls with
  | [] => Some offset
  | call :: rest =>
      match callReturn call with
      | Some offset' => lastReturn offset' rest
      | None => None
      end
  end.

Fixpoint StrictlyIncreasing (offsets : list nat) : Prop :=
  match offsets with
  | a :: (b :: _) as rest => a < b /\ StrictlyIncreasing rest
  | _ => True
  end.

Fixpoint NonDecreasing (offsets : list nat) : Prop :=
  match offsets with
  | a :: (b :: _) as rest => a <= b /\ NonDecreasing rest
  | _ => True
  end.

(** No call returned an offset before the one it was given. *)
Definition NeverBackwards (calls : list Call) : Prop :=
  forall call offset', In call calls -> callReturn call = Some offset' -> callOffset call <= offset'.

Definition returned (outcome : result nat) : option nat :=
  match outcome with
  | Ok offset => Some offset
  | Err _ => None
  end.

Definition returnedRead {T : Type} (outcome : result (T * nat)) : option nat :=
  match outcome with
  | Ok (_, offset) => Some offset
  | Err _ => None
  end.

Section Vocabulary.

Variable V : Type.
Variable undefined : V.

(** The calls of the log of [writeItems] are calls of the items, each
    with the element of its own position. *)
Definition WritesOf (items : list (Encoder V)) (value : list V) (calls : list Call) : Prop :=
  forall call, In call calls ->
    exists item bytes,
      nth_error items (callIndex call) = Some item /\
      returned (snd (write item (nth (callIndex call) value undefined) bytes (callOffset call)))
      = callReturn call.

Definition ReadsOf (items : list (Decoder V)) (bytes : Bytes) (calls : list Call) : Prop :=
  forall call, In call calls ->
    exists item,
      nth_error items (callIndex call) = Some item /\
      returnedRead (read item bytes (callOffset call)) = callReturn call.

End Vocabulary.

(** The number a list of digits denotes, most significant digit first. *)
Definition fromDigits (base : N) (digits : list N) : N :=
  fold_left (fun sum digit => sum * base + digit)%N digits 0%N.

Definition NoLeadingZero (digits : list N) : Prop := hd 1%N digits <> 0%N.

(** Every character of [value] is one of the alphabet. *)
Definition Valid (alphabet value : JsString) : Prop :=
  Forall (fun char => In char alphabet) value.


(** No character occurs twice in [letters]. *)
Fixpoint distinct (letters : JsString) : bool :=
  match letters with
  | [] => true
  | a :: rest => negb (existsb (Ascii.eqb a) rest) && distinct rest
  end.

(** ** What a decoder gives back *)

Section ReadContracts.

Variable T : Type.

(** [decoder] reads [element] from the bytes [piece], wherever they are
    and whatever follows them, and returns the offset that follows
    them. *)
Definition ReadsPiece (decoder : Decoder T) (element : T) (piece : Bytes) : Prop :=
  forall before after,
    read decoder (before ++ piece ++ after) (length before)
    = Ok (element, length before + length piece).

(** One piece per item, each item reading its element from its piece. *)
Inductive ReadsAll : list (Decoder T) -> list T -> list Bytes -> Prop :=
  | ReadsAll_nil : ReadsAll [] [] []
  | ReadsAll_cons item element piece items elements pieces :
      ReadsPiece item element piece ->
      ReadsAll items elements pieces ->
      ReadsAll (item :: items) (element :: elements) (piece :: pieces).

End ReadContracts.

(** ** JavaScript values

    [isOption] takes a value of type [unknown] and the signer guards take
    any object: the values below are the ones they can tell apart.  An
    object is the list of its properties; the first occurrence of a key is
    the property (an array is the object of its indices and its
    length). *)

From Stdlib Require Import ZArith.

Module Js.

#[warnings="-register-all"]
Inductive JsAny : Type :=
  | JNull
  | JUndefined
  | JBoolean (b : bool)
  | JNumber (n : Z)
  | JString (s : string)
  | JFunction (name : string)
  | JObject (fields : list (string * JsAny)).

(** What [input && ...] goes on with: every value but [null],
    [undefined], [false], [0] and the empty string. *)
Definition truthy (input : JsAny) : bool :=
  match input with
  | JNull | JUndefined => false
  | JBoolean b => b
  | JNumber n => negb (Z.eqb n 0)
  | JString s => negb (String.eqb s "")
  | JFunction _ | JObject _ => true
  end.

(** [typeof input]. *)
Definition typeof (input : JsAny) : string :=
  match input with
  | JNull => "object"
  | JUndefined => "undefined"
  | JBoolean _ => "boolean"
  | JNumber _ => "number"
  | JString _ => "string"
  | JFunction _ => "function"
  | JObject _ => "object"
  end.

Fixpoint lookup (key : string) (fields : list (string * JsAny)) : option JsAny :=
  match fields with
  | [] => None
  | (k, v) :: rest => if String.eqb k key then Some v else lookup key rest
  end.

(** [key in object]. *)
Definition hasProperty (key : string) (fields : list (string * JsAny)) : bool :=
  match lookup key fields with
  | Some _ => true
  | None => false
  end.

(** [object.key], [undefined] when the object has no such property. *)
Definition getProperty (key : string) (fields : list (string * JsAny)) : JsAny :=
  match lookup key fields with
  | Some v => v
  | None => JUndefined
  end.

(** [value === 'literal']. *)
Definition isTheString (literal : string) (value : JsAny) : bool :=
  match value with
  | JString s => String.eqb s literal
  | _ => false
  end.

(** The properties of a value the guards of [isOption] let through; the
    guards come first, so that [in] and the member accesses are only
    reached for an object that is not [null]. *)
Definition fieldsOf (input : JsAny) : list (string * JsAny) :=
  match input with
  | JObject fields => fields
  | _ => []
  end.

End Js.

Import Js.

(** ** The option type, [base58.ts] lines 89-325 *)

Module Option.

(** [some], line 228: [({ __option: 'Some', value })]. *)
Definition some (value : JsAny) : JsAny :=
  JObject [("__option"%string, JString "Some"); ("value"%string, value)].

(** [none], line 251: [({ __option: 'None' })]. *)
Definition none : JsAny :=
  JObject [("__option"%string, JString "None")].

(** [isOption], lines 275-281:
    [!!(input && typeof input === 'object' && '__option' in input &&
        ((input.__option === 'Some' && 'value' in input) || input.__option === 'None'))]. *)
Definition isOption (input : JsAny) : bool :=
  truthy input
  && String.eqb (typeof input) "object"
  && hasProperty "__option" (fieldsOf input)
  && ((isTheString "Some" (getProperty "__option" (fieldsOf input))
       && hasProperty "value" (fieldsOf input))
      || isTheString "None" (getProperty "__option" (fieldsOf input))).

(** [option.__option]: a [TypeError] on [null] and [undefined],
    [undefined] on the other values that are not objects. *)
Definition optionTag (option : JsAny) : result JsAny :=
  match option with
  | JNull | JUndefined => Err (OTHER_ERROR "TypeError")
  | JObject fields => Ok (getProperty "__option" fields)
  | _ => Ok JUndefined
  end.

(** [isSome], line 303: [option.__option === 'Some']. *)
Definition isSome (option : JsAny) : result bool :=
  tag <- optionTag option ;; Ok (isTheString "Some" tag).

(** [isNone], line 325: [option.__option === 'None']. *)
Definition isNone (option : JsAny) : result bool :=
  tag <- optionTag option ;; Ok (isTheString "None" tag).

End Option.

Import Option.

(** ** [message-partial-signer.ts] *)

Module Signer.

Inductive SignerError : Type :=
  | EXPECTED_MESSAGE_PARTIAL_SIGNER (address : JsAny).

Inductive Asserted : Type :=
  | Returns
  | Throws (e : SignerError).

(** [isMessagePartialSigner], lines 75-80, on the properties of the
    object it is given:
    ['signMessages' in value && typeof value.signMessages === 'function']. *)
Definition isMessagePartialSigner (value : list (string * JsAny)) : bool :=
  hasProperty "signMessages" value
  && String.eqb (typeof (getProperty "signMessages" value)) "function".

(** [assertIsMessagePartialSigner], lines 99-108. *)
Definition assertIsMessagePartialSigner (value : list (string * JsAny)) : Asserted :=
  if negb (isMessagePartialSigner value)
  then Throws (EXPECTED_MESSAGE_PARTIAL_SIGNER (getProperty "address" value))
  else Returns.

End Signer.

Import Signer.

(** ** A run of reads that does not fail *)

Section ReadChains.

Variable V : Type.

(** The items read one after the other, none failing: the first reads at
    [offset], each of the others where the one before it stopped; [values]
    are the values they read, in order, and the last one stopped at the
    final offset. *)
Inductive ReadChain : list (Decoder V) -> Bytes -> nat -> list V -> nat -> Prop :=
  | ReadChain_nil bytes offset : ReadChain [] bytes offset [] offset
  | ReadChain_cons item items bytes offset value offset' values offset'' :
      read item bytes offset = Ok (value, offset') ->
      ReadChain items bytes offset' values offset'' ->
      ReadChain (item :: items) bytes offset (value :: values) offset''.

End ReadChains.

(** * Properties *)

Unset Implicit Arguments.

(** ** The size algebra *)

Section SizeAlgebra.

Let step (all size : option nat) : option nat :=
  match all, size with
  | Some a, Some s => Some (a + s)
  | _, _ => None
  end.

Lemma sum_from_none (sizes : list (option nat)) :
  fold_left step sizes None = None.
Proof.
  induction sizes as [|size sizes IH]; simpl; auto.
Qed.

Lemma sum_from_some (sizes : list nat) (start : nat) :
  fold_left step (map Some sizes) (Some start) = Some (start + list_sum sizes).
Proof.
  revert start.
  induction sizes as [|size sizes IH]; intros start; simpl.
  - f_equal; lia.
  - rewrite IH. f_equal; lia.
Qed.

Lemma sum_with_none (sizes : list (option nat)) (start : option nat) :
  In None sizes -> fold_left step sizes start = None.
Proof.
  revert start.
  induction sizes as [|size sizes IH]; intros start Hin; simpl in *.
  - contradiction.
  - destruct Hin as [-> | Hin].
    + destruct start; simpl; apply sum_from_none.
    + apply IH; assumption.
Qed.

Lemma sumCodecSizes_all (sizes : list nat) :
  sumCodecSizes (map Some sizes) = Some (list_sum sizes).
Proof.
  unfold sumCodecSizes. apply (sum_from_some sizes 0).
Qed.

Lemma sumCodecSizes_any (sizes : list (option nat)) :
  In None sizes -> sumCodecSizes sizes = None.
Proof.
  unfold sumCodecSizes. apply sum_with_none.
Qed.

Lemma all_or_none (sizes : list (option nat)) :
  In None sizes \/ exists known, sizes = map Some known.
Proof.
  induction sizes as [|[size|] sizes IH]; simpl.
  - right. exists []; reflexivity.
  - destruct IH as [Hin | [known ->]].
    + left; auto.
    + right. exists (size :: known); reflexivity.
  - left; auto.
Qed.

Lemma map_Some_inj (a b : list nat) : map Some a = map Some b -> a = b.
Proof.
  revert b.
  induction a as [|x a IH]; intros [|y b] H; simpl in H; try discriminate; auto.
  injection H as -> H. f_equal; auto.
Qed.

Variable T : Type.

Lemma fixed_items_max (items : list (Encoder T)) (sizes : list nat) :
  map (fun item => getFixedSize (encoderSize item)) items = map Some sizes ->
  map (fun item => getMaxSize (encoderSize item)) items = map Some sizes.
Proof.
  revert sizes.
  induction items as [|item items IH]; intros [|size sizes] H; simpl in *;
    try discriminate; auto.
  injection H as Hitem H.
  rewrite (IH _ H). f_equal.
  destruct (encoderSize item); simpl in *; congruence.
Qed.

Lemma unbounded_item_not_fixed (items : list (Encoder T)) :
  In None (map (fun item => getMaxSize (encoderSize item)) items) ->
  In None (map (fun item => getFixedSize (encoderSize item)) items).
Proof.
  rewrite !in_map_iff.
  intros [item [Hmax Hin]]. exists item. split; auto.
  destruct (encoderSize item); simpl in *; congruence.
Qed.

Lemma fixed_decoders_max (items : list (Decoder T)) (sizes : list nat) :
  map (fun item => getDecoderFixedSize (decoderSize item)) items = map Some sizes ->
  map (fun item => getDecoderMaxSize (decoderSize item)) items = map Some sizes.
Proof.
  revert sizes.
  induction items as [|item items IH]; intros [|size sizes] H; simpl in *;
    try discriminate; auto.
  injection H as Hitem H.
  rewrite (IH _ H). f_equal.
  destruct (decoderSize item); simpl in *; congruence.
Qed.

Lemma unbounded_decoder_not_fixed (items : list (Decoder T)) :
  In None (map (fun item => getDecoderMaxSize (decoderSize item)) items) ->
  In None (map (fun item => getDecoderFixedSize (decoderSize item)) items).
Proof.
  rewrite !in_map_iff.
  intros [item [Hmax Hin]]. exists item. split; auto.
  destruct (decoderSize item); simpl in *; congruence.
Qed.

Variable undefined : T.

(** The size descriptor of the tuple encoder. *)
Lemma tuple_encoder_size (items : list (Encoder T)) :
  let fixedSizes := map (fun item => getFixedSize (encoderSize item)) items in
  let maxSizes := map (fun item => getMaxSize (encoderSize item)) items in
  let size := encoderSize (getTupleEncoder undefined items) in
  (forall sizes, fixedSizes = map Some sizes -> getFixedSize size = Some (list_sum sizes)) /\
  (forall sizes, maxSizes = map Some sizes -> getMaxSize size = Some (list_sum sizes)) /\
  (In None fixedSizes -> getFixedSize size = None) /\
  (In None maxSizes -> getMaxSize size = None).
Proof.
  cbv zeta. unfold getTupleEncoder; simpl.
  destruct (all_or_none (map (fun item => getFixedSize (encoderSize item)) items))
    as [Hany | [known Hall]].
  - rewrite (sumCodecSizes_any _ Hany); simpl.
    repeat split.
    + intros sizes H. rewrite H in Hany.
      apply in_map_iff in Hany. destruct Hany as [? [? _]]; discriminate.
    + intros sizes H. rewrite H. apply sumCodecSizes_all.
    + intros H. apply sumCodecSizes_any; assumption.
  - rewrite Hall, sumCodecSizes_all; simpl.
    repeat split.
    + intros sizes H. apply map_Some_inj in H. subst; reflexivity.
    + intros sizes H. rewrite (fixed_items_max _ _ Hall) in H.
      apply map_Some_inj in H. subst; reflexivity.
    + intros H. apply in_map_iff in H. destruct H as [? [? _]]; discriminate.
    + intros H. apply unbounded_item_not_fixed in H. rewrite Hall in H.
      apply in_map_iff in H. destruct H as [? [? _]]; discriminate.
Qed.

(** The size descriptor of the tuple decoder. *)
Lemma tuple_decoder_size (items : list (Decoder T)) :
  let fixedSizes := map (fun item => getDecoderFixedSize (decoderSize item)) items in
  let maxSizes := map (fun item => getDecoderMaxSize (decoderSize item)) items in
  let size := decoderSize (getTupleDecoder items) in
  (forall sizes, fixedSizes = map Some sizes -> getDecoderFixedSize size = Some (list_sum sizes)) /\
  (forall sizes, maxSizes = map Some sizes -> getDecoderMaxSize size = Some (list_sum sizes)) /\
  (In None fixedSizes -> getDecoderFixedSize size = None) /\
  (In None maxSizes -> getDecoderMaxSize size = None).
Proof.
  cbv zeta. unfold getTupleDecoder; simpl.
  destruct (all_or_none (map (fun item => getDecoderFixedSize (decoderSize item)) items))
    as [Hany | [known Hall]].
  - rewrite (sumCodecSizes_any _ Hany); simpl.
    repeat split.
    + intros sizes H. rewrite H in Hany.
      apply in_map_iff in Hany. destruct Hany as [? [? _]]; discriminate.
    + intros sizes H. rewrite H. apply sumCodecSizes_all.
    + intros H. apply sumCodecSizes_any; assumption.
  - rewrite Hall, sumCodecSizes_all; simpl.
    repeat split.
    + intros sizes H. apply map_Some_inj in H. subst; reflexivity.
    + intros sizes H. rewrite (fixed_decoders_max _ _ Hall) in H.
      apply map_Some_inj in H. subst; reflexivity.
    + intros H. apply in_map_iff in H. destruct H as [? [? _]]; discriminate.
    + intros H. apply unbounded_decoder_not_fixed in H. rewrite Hall in H.
      apply in_map_iff in H. destruct H as [? [? _]]; discriminate.
Qed.

End SizeAlgebra.

(** ** The loops of the tuple *)

Lemma snd_let_pair {A B C : Type} (p : A * B) (f : A -> C) :
  snd (let '(a, b) := p in (f a, b)) = snd p.
Proof. destruct p; reflexivity. Qed.

Lemma fst_let_pair {A B C : Type} (p : A * B) (f : A -> C) :
  fst (let '(a, b) := p in (f a, b)) = f (fst p).
Proof. destruct p; reflexivity. Qed.

Lemma chained_non_decreasing (calls : list Call) :
  forall index offset,
    Chained index offset calls -> NeverBackwards calls ->
    NonDecreasing (callOffsets calls).
Proof.
  induction calls as [|call calls IH]; intros index offset Hchain Hfwd; simpl; auto.
  destruct calls as [|next calls]; simpl; auto.
  destruct Hchain as (_ & Hoff & Hret).
  destruct (callReturn call) as [offset'|] eqn:Hcall; [|discriminate].
  assert (Hnext : callOffset next = offset') by (simpl in Hret; tauto).
  split.
  - rewrite Hnext. apply Hfwd; simpl; auto.
  - apply (IH (S index) offset'); auto.
    intros c o Hin. apply Hfwd. simpl in *; tauto.
Qed.

Lemma chained_strictly_increasing (calls : list Call) :
  forall index offset,
    Chained index offset calls ->
    (forall call offset', In call calls -> callReturn call = Some offset' ->
                          callOffset call < offset') ->
    StrictlyIncreasing (callOffsets calls).
Proof.
  induction calls as [|call calls IH]; intros index offset Hchain Hfwd; simpl; auto.
  destruct calls as [|next calls]; simpl; auto.
  destruct Hchain as (_ & Hoff & Hret).
  destruct (callReturn call) as [offset'|] eqn:Hcall; [|discriminate].
  assert (Hnext : callOffset next = offset') by (simpl in Hret; tauto).
  split.
  - rewrite Hnext. apply Hfwd; simpl; auto.
  - apply (IH (S index) offset'); auto.
    intros c o Hin. apply Hfwd. simpl in *; tauto.
Qed.

Section TupleLoops.

Variable V : Type.
Variable undefined : V.

Lemma writeItems_chained (items : list (Encoder V)) :
  forall index value bytes offset,
    Chained index offset (fst (writeItems undefined items index value bytes offset)).
Proof.
  induction items as [|item items IH]; intros index value bytes offset; simpl; auto.
  destruct (write item (nth index value undefined) bytes offset) as [bytes' [offset'|e]].
  - rewrite fst_let_pair. simpl. repeat split. apply IH.
  - simpl. auto.
Qed.

Lemma writeItems_calls (items : list (Encoder V)) :
  forall index value bytes offset call,
    In call (fst (writeItems undefined items index value bytes offset)) ->
    index <= callIndex call /\
    exists item bytes',
      nth_error items (callIndex call - index) = Some item /\
      returned (snd (write item (nth (callIndex call) value undefined) bytes' (callOffset call)))
      = callReturn call.
Proof.
  induction items as [|item items IH]; intros index value bytes offset call; simpl.
  - contradiction.
  - destruct (write item (nth index value undefined) bytes offset)
      as [bytes' [offset'|e]] eqn:Hwrite.
    + rewrite fst_let_pair. simpl. intros [<- | Hin].
      * simpl. split; [lia|]. exists item, bytes.
        rewrite Nat.sub_diag, Hwrite. auto.
      * destruct (IH _ _ _ _ _ Hin) as (Hle & item' & b & Hnth & Hret).
        split; [lia|]. exists item', b. split; auto.
        replace (callIndex call - index) with (S (callIndex call - S index)) by lia.
        exact Hnth.
    + simpl. intros [<- | []]. simpl. split; [lia|]. exists item, bytes.
      rewrite Nat.sub_diag, Hwrite. auto.
Qed.

Lemma writeItems_outcome (items : list (Encoder V)) :
  forall index value bytes offset,
    let run := writeItems undefined items index value bytes offset in
    lastReturn offset (fst run) = returned (snd (snd run)) /\
    (forall offset', snd (snd run) = Ok offset' -> length (fst run) = length items).
Proof.
  induction items as [|item items IH]; intros index value bytes offset; simpl.
  - split; auto.
  - destruct (write item (nth index value undefined) bytes offset) as [bytes' [offset'|e]].
    + rewrite fst_let_pair, snd_let_pair. simpl.
      destruct (IH (S index) value bytes' offset') as [Hlast Hlen].
      split; auto. intros o Ho. f_equal. eauto.
    + simpl. split; auto. discriminate.
Qed.

Lemma writeItems_error (items : list (Encoder V)) :
  forall index value bytes offset e,
    snd (snd (writeItems undefined items index value bytes offset)) = Err e ->
    exists item element bytes' offset',
      In item items /\ snd (write item element bytes' offset') = Err e.
Proof.
  induction items as [|item items IH]; intros index value bytes offset e; simpl.
  - discriminate.
  - destruct (write item (nth index value undefined) bytes offset)
      as [bytes' [offset'|e']] eqn:Hwrite.
    + rewrite snd_let_pair. intros H.
      destruct (IH _ _ _ _ _ H) as (item' & v & b & o & Hin & Herr).
      exists item', v, b, o. auto.
    + simpl. intros [= ->].
      exists item, (nth index value undefined), bytes, offset.
      rewrite Hwrite. auto.
Qed.

Lemma readItems_chained (items : list (Decoder V)) :
  forall index bytes offset values,
    Chained index offset (fst (readItems items index bytes offset values)).
Proof.
  induction items as [|item items IH]; intros index bytes offset values; simpl; auto.
  destruct (read item bytes offset) as [[newValue newOffset]|e].
  - rewrite fst_let_pair. simpl. repeat split. apply IH.
  - simpl. auto.
Qed.

Lemma readItems_calls (items : list (Decoder V)) :
  forall index bytes offset values call,
    In call (fst (readItems items index bytes offset values)) ->
    index <= callIndex call /\
    exists item,
      nth_error items (callIndex call - index) = Some item /\
      returnedRead (read item bytes (callOffset call)) = callReturn call.
Proof.
  induction items as [|item items IH]; intros index bytes offset values call; simpl.
  - contradiction.
  - destruct (read item bytes offset) as [[newValue newOffset]|e] eqn:Hread.
    + rewrite fst_let_pair. simpl. intros [<- | Hin].
      * simpl. split; [lia|]. exists item. rewrite Nat.sub_diag, Hread. auto.
      * destruct (IH _ _ _ _ _ Hin) as (Hle & item' & Hnth & Hret).
        split; [lia|]. exists item'. split; auto.
        replace (callIndex call - index) with (S (callIndex call - S index)) by lia.
        exact Hnth.
    + simpl. intros [<- | []]. simpl. split; [lia|]. exists item.
      rewrite Nat.sub_diag, Hread. auto.
Qed.

Lemma readItems_outcome (items : list (Decoder V)) :
  forall index bytes offset values,
    let run := readItems items index bytes offset values in
    lastReturn offset (fst run) = returnedRead (snd run) /\
    (forall out, snd run = Ok out -> length (fst run) = length items).
Proof.
  induction items as [|item items IH]; intros index bytes offset values; simpl.
  - split; auto.
  - destruct (read item bytes offset) as [[newValue newOffset]|e].
    + rewrite fst_let_pair, snd_let_pair. simpl.
      destruct (IH (S index) bytes newOffset (values ++ [newValue])) as [Hlast Hlen].
      split; auto. intros o Ho. f_equal. eauto.
    + simpl. split; auto. discriminate.
Qed.

(** Every run of the loop of [read] ends in one of two ways: with one
    more value per item, or with the error of an item. *)
Lemma readItems_result (items : list (Decoder V)) :
  forall index bytes offset values,
    (exists decoded offset',
        snd (readItems items index bytes offset values) = Ok (values ++ decoded, offset') /\
        length decoded = length items) \/
    (exists e item offset',
        In item items /\ read item bytes offset' = Err e /\
        snd (readItems items index bytes offset values) = Err e).
Proof.
  induction items as [|item items IH]; intros index bytes offset values; simpl.
  - left. exists [], offset. rewrite app_nil_r. auto.
  - destruct (read item bytes offset) as [[newValue newOffset]|e] eqn:Hread.
    + rewrite snd_let_pair.
      destruct (IH (S index) bytes newOffset (values ++ [newValue]))
        as [(decoded & o & Hrun & Hlen) | (e & item' & o & Hin & Herr & Hrun)].
      * left. exists (newValue :: decoded), o. rewrite Hrun, <- app_assoc. simpl. auto.
      * right. exists e, item', o. auto.
    + right. exists e, item, offset. simpl. auto.
Qed.

Lemma tupleWrite_matching (items : list (Encoder V)) (value : list V) bytes offset :
  length value = length items ->
  tupleWrite undefined items value bytes offset = writeItems undefined items 0 value bytes offset.
Proof.
  intros Hlen. unfold tupleWrite, assertValidNumberOfItemsForCodec.
  rewrite Hlen, Nat.eqb_refl. reflexivity.
Qed.

Lemma tupleWrite_mismatch (items : list (Encoder V)) (value : list V) bytes offset :
  length value <> length items ->
  tupleWrite undefined items value bytes offset
  = ([], (bytes, Err (INVALID_NUMBER_OF_ITEMS "tuple" (length items) (length value)))).
Proof.
  intros Hlen. unfold tupleWrite, assertValidNumberOfItemsForCodec.
  destruct (Nat.eqb_spec (length items) (length value)) as [Heq|_]; [congruence|reflexivity].
Qed.

Lemma hiddenValue_length (prefixedEncoders : list (Encoder V)) (encoder : Encoder V) value :
  length (hiddenValue undefined prefixedEncoders value)
  = length (prefixedEncoders ++ [encoder]).
Proof.
  unfold hiddenValue. rewrite !length_app, length_map. reflexivity.
Qed.

End TupleLoops.

(** ** Tuples of lawful encoders *)

Section LawfulTuples.

Variable V : Type.
Variable undefined : V.

Lemma lawful_encode (encoder : Encoder V) (value : V) (piece : Bytes) :
  WritesPiece encoder value piece -> encode encoder value = Ok piece.
Proof.
  intros [Hsize Hwrite]. unfold encode. rewrite Hsize.
  pose proof (Hwrite [] (repeat 0%N (length piece)) []) as H.
  simpl in H. rewrite !app_nil_r in H. rewrite H.
  - reflexivity.
  - apply repeat_length.
Qed.

Lemma writesAll_length (items : list (Encoder V)) (elements : list V) (pieces : list Bytes) :
  WritesAll items elements pieces -> length elements = length items.
Proof.
  induction 1; simpl; auto.
Qed.

Lemma writesAll_app (items items' : list (Encoder V)) elements elements' pieces pieces' :
  WritesAll items elements pieces -> WritesAll items' elements' pieces' ->
  WritesAll (items ++ items') (elements ++ elements') (pieces ++ pieces').
Proof.
  induction 1; simpl; auto. intros H'. constructor; auto.
Qed.

Lemma sizeOfItems_pieces (items : list (Encoder V)) (elements : list V) (pieces : list Bytes) :
  WritesAll items elements pieces ->
  forall front,
    sizeOfItems undefined items (length front) (front ++ elements)
    = map (@length byte) pieces.
Proof.
  induction 1 as [|item element piece items elements pieces [Hsize _] _ IH];
    intros front; simpl.
  - reflexivity.
  - rewrite nth_middle, Hsize. f_equal.
    replace (front ++ element :: elements) with ((front ++ [element]) ++ elements)
      by (rewrite <- app_assoc; reflexivity).
    replace (S (length front)) with (length (front ++ [element]))
      by (rewrite length_app; simpl; lia).
    apply IH.
Qed.

Lemma fold_add (sizes : list nat) (start : nat) :
  fold_left (fun all one => all + one) sizes start = start + list_sum sizes.
Proof.
  revert start. induction sizes as [|size sizes IH]; intros start; simpl.
  - lia.
  - rewrite IH. lia.
Qed.

Lemma length_concat_sum (pieces : list Bytes) :
  length (concat pieces) = list_sum (map (@length byte) pieces).
Proof.
  induction pieces as [|piece pieces IH]; simpl; auto.
  rewrite length_app, IH. reflexivity.
Qed.

Lemma fixed_sum_sizes (items : list (Encoder V)) :
  forall start fixedSize index value,
    fold_left
      (fun all size =>
         match all, size with
         | Some a, Some s => Some (a + s)
         | _, _ => None
         end)
      (map (fun item => getFixedSize (encoderSize item)) items) (Some start)
    = Some fixedSize ->
    fixedSize = start + list_sum (sizeOfItems undefined items index value).
Proof.
  induction items as [|item items IH]; intros start fixedSize index value; simpl.
  - intros [= <-]. lia.
  - unfold getEncodedSize.
    destruct (encoderSize item) as [n|f m]; simpl.
    + intros H. rewrite (IH _ _ (S index) value H). lia.
    + intros H. exfalso. revert H. clear.
      generalize (map (fun item => getFixedSize (encoderSize item)) items).
      induction l; simpl; auto; discriminate.
Qed.

Lemma tuple_encoded_size (items : list (Encoder V)) (value : list V) (pieces : list Bytes) :
  WritesAll items value pieces ->
  getEncodedSize value (getTupleEncoder undefined items) = length (concat pieces).
Proof.
  intros Hlaw.
  rewrite length_concat_sum, <- (sizeOfItems_pieces _ _ _ Hlaw []).
  unfold getEncodedSize, getTupleEncoder; simpl.
  destruct (sumCodecSizes (map (fun item => getFixedSize (encoderSize item)) items))
    as [fixedSize|] eqn:Hfixed.
  - apply (fixed_sum_sizes items 0 fixedSize 0 value Hfixed).
  - unfold tupleSizeFromValue. rewrite fold_add. reflexivity.
Qed.

(** Lawful items fill the slot they are given piece after piece. *)
Lemma writeItems_lawful (items : list (Encoder V)) (elements : list V) (pieces : list Bytes) :
  WritesAll items elements pieces ->
  forall front before slot after,
    length slot = length (concat pieces) ->
    snd (writeItems undefined items (length front) (front ++ elements)
           (before ++ slot ++ after) (length before))
    = (before ++ concat pieces ++ after, Ok (length before + length (concat pieces))).
Proof.
  induction 1 as [|item element piece items elements pieces [_ Hwrite] _ IH];
    intros front before slot after Hlen; simpl in *.
  - destruct slot; [|discriminate]. simpl. rewrite Nat.add_0_r. reflexivity.
  - rewrite length_app in Hlen. rewrite nth_middle.
    set (others := concat pieces) in *.
    rewrite <- (firstn_skipn (length piece) slot), <- app_assoc.
    rewrite Hwrite by (rewrite length_firstn; lia).
    rewrite snd_let_pair.
    replace (before ++ piece ++ skipn (length piece) slot ++ after)
      with ((before ++ piece) ++ skipn (length piece) slot ++ after)
      by (rewrite <- app_assoc; reflexivity).
    replace (length before + length piece) with (length (before ++ piece))
      by (rewrite length_app; reflexivity).
    replace (front ++ element :: elements) with ((front ++ [element]) ++ elements)
      by (rewrite <- app_assoc; reflexivity).
    replace (S (length front)) with (length (front ++ [element]))
      by (rewrite length_app; simpl; lia).
    rewrite IH by (rewrite length_skipn; lia).
    rewrite !length_app, <- !app_assoc. f_equal. f_equal. lia.
Qed.

(** A tuple of lawful items encodes a value as the pieces of its elements,
    one after the other. *)
Lemma tuple_encode_lawful (items : list (Encoder V)) (value : list V) (pieces : list Bytes) :
  WritesAll items value pieces ->
  encode (getTupleEncoder undefined items) value = Ok (concat pieces).
Proof.
  intros Hlaw. unfold encode.
  rewrite (tuple_encoded_size _ _ _ Hlaw).
  unfold getTupleEncoder at 1; simpl.
  rewrite (tupleWrite_matching _ undefined _ _ _ _ (writesAll_length _ _ _ Hlaw)).
  pose proof (writeItems_lawful _ _ _ Hlaw [] []
                (repeat 0%N (length (concat pieces))) []) as H.
  simpl in H. rewrite !app_nil_r in H. rewrite H.
  - reflexivity.
  - apply repeat_length.
Qed.

Lemma hidden_encoded_size (tuple : Encoder (list V)) (unmap : V -> list V) value :
  getEncodedSize value (transformEncoder tuple unmap) = getEncodedSize (unmap value) tuple.
Proof.
  unfold getEncodedSize, transformEncoder; simpl.
  destruct (encoderSize tuple); reflexivity.
Qed.

Lemma writesAll_hidden (prefixedEncoders : list (Encoder V)) (prefixes : list Bytes) :
  Forall2 (fun prefixEncoder prefix => WritesPiece prefixEncoder undefined prefix)
          prefixedEncoders prefixes ->
  WritesAll prefixedEncoders (map (fun _ => undefined) prefixedEncoders) prefixes.
Proof.
  induction 1; simpl; constructor; auto.
Qed.

(** The bytes of a hidden-prefix encoder over lawful encoders. *)
Lemma hidden_encode_lawful (encoder : Encoder V) (prefixedEncoders : list (Encoder V))
    (value : V) (main : Bytes) (prefixes : list Bytes) :
  WritesPiece encoder value main ->
  Forall2 (fun prefixEncoder prefix => WritesPiece prefixEncoder undefined prefix)
          prefixedEncoders prefixes ->
  encode (getHiddenPrefixEncoder undefined encoder prefixedEncoders) value
  = Ok (concat prefixes ++ main).
Proof.
  intros Hmain Hprefixes.
  assert (Hall : WritesAll (prefixedEncoders ++ [encoder])
                           (hiddenValue undefined prefixedEncoders value)
                           (prefixes ++ [main])).
  { unfold hiddenValue. apply writesAll_app.
    - apply writesAll_hidden; assumption.
    - constructor; [assumption|constructor]. }
  pose proof (tuple_encode_lawful _ _ _ Hall) as Htuple.
  rewrite concat_app in Htuple. simpl in Htuple. rewrite app_nil_r in Htuple.
  unfold encode in *. unfold getHiddenPrefixEncoder.
  rewrite hidden_encoded_size. exact Htuple.
Qed.

Lemma lawful_pieces (hidden : V) (prefixedEncoders : list (Encoder V)) :
  Forall (fun prefixEncoder => LawfulOn prefixEncoder hidden) prefixedEncoders ->
  exists prefixes,
    Forall2 (fun prefixEncoder prefix => WritesPiece prefixEncoder hidden prefix)
            prefixedEncoders prefixes.
Proof.
  induction 1 as [|item items [piece Hitem] _ [pieces IH]].
  - exists []. constructor.
  - exists (piece :: pieces). constructor; assumption.
Qed.

Lemma prefixes_encode_lawful (prefixedEncoders : list (Encoder V)) (prefixes : list Bytes) :
  Forall2 (fun prefixEncoder prefix => WritesPiece prefixEncoder undefined prefix)
          prefixedEncoders prefixes ->
  Forall2 (fun prefixEncoder prefix => encode prefixEncoder undefined = Ok prefix)
          prefixedEncoders prefixes.
Proof.
  induction 1 as [|item piece items pieces Hitem _ IH]; constructor; auto.
  apply lawful_encode; assumption.
Qed.

End LawfulTuples.

(** ** Reading back a hidden prefix *)

Section HiddenRead.

Variable V : Type.
Variable undefined : V.

(** Prefix decoders that consume what their encoders wrote take the loop
    of [read] to the first byte after the prefixes. *)
Lemma readItems_prefixes (prefixedCodecs : list (Codec V V)) (prefixes : list Bytes) :
  Forall2 (fun prefixCodec prefix => encode (codecEncoder prefixCodec) undefined = Ok prefix)
          prefixedCodecs prefixes ->
  Forall (ConsumesPrefix undefined) prefixedCodecs ->
  forall rest index before after values,
    exists ignored,
      length ignored = length prefixedCodecs /\
      snd (readItems (map (@codecDecoder V V) prefixedCodecs ++ rest) index
             (before ++ concat prefixes ++ after) (length before) values)
      = snd (readItems rest (index + length prefixedCodecs)
               (before ++ concat prefixes ++ after)
               (length before + length (concat prefixes)) (values ++ ignored)).
Proof.
  induction 1 as [|prefixCodec prefix prefixedCodecs prefixes Hencode _ IH];
    intros Hconsume rest index before after values; simpl.
  - exists []. rewrite app_nil_r, !Nat.add_0_r. auto.
  - inversion Hconsume as [|? ? Hhead Htail]; subst.
    destruct (Hhead prefix Hencode before (concat prefixes ++ after)) as [ignored Hread].
    rewrite <- app_assoc, Hread, snd_let_pair.
    destruct (IH Htail rest (S index) (before ++ prefix) after (values ++ [ignored]))
      as (others & Hlen & Hrun).
    exists (ignored :: others). split; [simpl; lia|].
    rewrite length_app in Hrun.
    rewrite <- !app_assoc in Hrun. simpl in Hrun.
    rewrite Hrun, length_app. f_equal. f_equal; lia.
Qed.

Lemma decode_read (decoder : Decoder V) (bytes : Bytes) (value : V) :
  decode decoder bytes = Ok value ->
  exists offset, read decoder bytes 0 = Ok (value, offset).
Proof.
  unfold decode. destruct (read decoder bytes 0) as [[v o]|e]; intros [= <-].
  exists o; reflexivity.
Qed.

Lemma hidden_decode (codec : Codec V V) (prefixedCodecs : list (Codec V V))
    (prefixes : list Bytes) (main : Bytes) (value : V) :
  Forall2 (fun prefixCodec prefix => encode (codecEncoder prefixCodec) undefined = Ok prefix)
          prefixedCodecs prefixes ->
  Forall (ConsumesPrefix undefined) prefixedCodecs ->
  ReadsRelative (codecDecoder codec) ->
  decode (codecDecoder codec) main = Ok value ->
  decode (getHiddenPrefixDecoder undefined (codecDecoder codec)
            (map (@codecDecoder V V) prefixedCodecs))
         (concat prefixes ++ main)
  = Ok value.
Proof.
  intros Hencode Hconsume Hrelative Hmain.
  destruct (decode_read _ _ _ Hmain) as [offset Hread].
  destruct (readItems_prefixes _ _ Hencode Hconsume [codecDecoder codec] 0 [] main [])
    as (ignored & Hlen & Hrun).
  simpl in Hrun.
  unfold decode, getHiddenPrefixDecoder, transformDecoder, getTupleDecoder, tupleRead; simpl.
  rewrite Hrun, (Hrelative _ _ _ _ Hread). simpl.
  rewrite length_app, Nat.add_sub. simpl.
  rewrite nth_middle. reflexivity.
Qed.

End HiddenRead.

(** ** Numerals *)

Open Scope N_scope.

Section Digits.

Variable base : N.

Lemma fromDigits_snoc (digits : list N) (digit : N) :
  fromDigits base (digits ++ [digit]) = fromDigits base digits * base + digit.
Proof.
  unfold fromDigits. rewrite fold_left_app. reflexivity.
Qed.

Lemma fromDigits_zeroes (count : nat) (digits : list N) :
  fromDigits base (repeat 0 count ++ digits) = fromDigits base digits.
Proof.
  unfold fromDigits. rewrite fold_left_app.
  replace (fold_left (fun sum digit => sum * base + digit) (repeat 0 count) 0) with 0;
    [reflexivity|].
  induction count as [|count IH]; simpl; auto.
Qed.

Lemma fold_digits_ge (digits : list N) :
  forall start, 1 <= base ->
    start <= fold_left (fun sum digit => sum * base + digit) digits start.
Proof.
  induction digits as [|digit digits IH]; intros start Hbase; simpl.
  - lia.
  - specialize (IH (start * base + digit) Hbase). nia.
Qed.

Lemma fromDigits_positive (digits : list N) :
  1 <= base -> digits <> [] -> NoLeadingZero digits -> 0 < fromDigits base digits.
Proof.
  intros Hbase Hne Hhead.
  destruct digits as [|digit digits]; [congruence|].
  unfold NoLeadingZero in Hhead; simpl in Hhead.
  unfold fromDigits; simpl.
  pose proof (fold_digits_ge digits digit Hbase). lia.
Qed.

Hypothesis base_ge_2 : 2 <= base.

Lemma last_digit (value digit : N) :
  digit < base ->
  (value * base + digit) / base = value /\ (value * base + digit) mod base = digit.
Proof.
  intros Hdigit. split; symmetry.
  - apply (N.div_unique _ _ _ digit); lia.
  - apply (N.mod_unique _ _ value); lia.
Qed.

(** The loop ends, within a fuel that counts the bits of the value, on
    the digits of the value. *)
Lemma divideRepeatedly_ends (fuel : nat) :
  forall value digits,
    value < 2 ^ N.of_nat fuel ->
    exists found,
      divideRepeatedly (S fuel) base value digits = Some (found ++ digits) /\
      fromDigits base found = value /\
      Forall (fun digit => digit < base) found /\
      NoLeadingZero found.
Proof.
  induction fuel as [|fuel IH]; intros value digits Hbound.
  - simpl in Hbound. assert (value = 0) by lia. subst.
    exists []. simpl. repeat split; auto. unfold NoLeadingZero; simpl; lia.
  - cbn [divideRepeatedly].
    destruct (N.ltb_spec 0 value) as [Hpos|Hzero].
    + assert (Hless : value / base < 2 ^ N.of_nat fuel).
      { rewrite Nat2N.inj_succ, N.pow_succ_r' in Hbound.
        apply N.Div0.div_lt_upper_bound.
        assert (2 * 2 ^ N.of_nat fuel <= base * 2 ^ N.of_nat fuel)
          by (apply N.mul_le_mono_r; assumption).
        lia. }
      destruct (IH (value / base) (value mod base :: digits) Hless)
        as (found & Hrun & Hvalue & Hdigits & Hhead).
      exists (found ++ [value mod base]).
      change (divideRepeatedly (S fuel) base (value / base) (value mod base :: digits)
              = Some (found ++ value mod base :: digits)) in Hrun.
      rewrite <- app_assoc. simpl. repeat split.
      * exact Hrun.
      * rewrite fromDigits_snoc, Hvalue.
        pose proof (N.div_mod value base). lia.
      * apply Forall_app. split; auto. constructor; auto.
        apply N.mod_lt. lia.
      * unfold NoLeadingZero in *. destruct found as [|digit found]; simpl in *; auto.
        unfold fromDigits in Hvalue; simpl in Hvalue.
        pose proof (N.div_mod value base). 
        assert (value / base = 0) by lia.
        assert (value mod base = value) by nia. lia.
    + assert (value = 0) by lia. subst.
      exists []. simpl. repeat split; auto. unfold NoLeadingZero; simpl; lia.
Qed.

Lemma toDigits_terminates (value : N) :
  exists found,
    toDigits base value = Some found /\
    fromDigits base found = value /\
    Forall (fun digit => digit < base) found /\
    NoLeadingZero found.
Proof.
  unfold toDigits.
  destruct (divideRepeatedly_ends (N.to_nat (N.size value)) value [])
    as (found & Hrun & Hrest).
  - rewrite N2Nat.id. apply N.size_gt.
  - exists found. rewrite app_nil_r in Hrun. auto.
Qed.

(** Whatever the fuel, the loop can only end on the digits it was given
    the number of. *)
Lemma divideRepeatedly_fromDigits (given : list N) :
  Forall (fun digit => digit < base) given -> NoLeadingZero given ->
  forall fuel digits found,
    divideRepeatedly fuel base (fromDigits base given) digits = Some found ->
    found = given ++ digits.
Proof.
  induction given as [|digit given IH] using rev_ind;
    intros Hdigits Hhead fuel digits found.
  - destruct fuel; simpl; [discriminate|]. intros [= <-]. reflexivity.
  - apply Forall_app in Hdigits. destruct Hdigits as [Hgiven Hdigit].
    inversion Hdigit as [|? ? Hlt _]; subst.
    rewrite fromDigits_snoc.
    destruct fuel as [|fuel]; [discriminate|]. cbn [divideRepeatedly].
    destruct (last_digit (fromDigits base given) digit Hlt) as [Hdiv Hmod].
    assert (Hpos : 0 < fromDigits base given * base + digit).
    { destruct given as [|first given].
      - unfold NoLeadingZero in Hhead; simpl in Hhead. unfold fromDigits; simpl. lia.
      - assert (0 < fromDigits base (first :: given))
          by (apply fromDigits_positive; [lia|discriminate|exact Hhead]).
        nia. }
    destruct (N.ltb_spec 0 (fromDigits base given * base + digit)); [|lia].
    rewrite Hdiv, Hmod. intros Hrun.
    rewrite <- app_assoc. simpl.
    apply (IH Hgiven) with (fuel := fuel); auto.
    unfold NoLeadingZero in *. destruct given; simpl in *; auto. lia.
Qed.

Lemma toDigits_fromDigits (given : list N) :
  Forall (fun digit => digit < base) given -> NoLeadingZero given ->
  toDigits base (fromDigits base given) = Some given.
Proof.
  intros Hdigits Hhead.
  destruct (toDigits_terminates (fromDigits base given)) as (found & Hrun & _).
  rewrite Hrun. f_equal.
  rewrite <- (app_nil_r given).
  apply (divideRepeatedly_fromDigits given Hdigits Hhead _ _ _ Hrun).
Qed.

End Digits.

Close Scope N_scope.

(** ** Strings over an alphabet *)

Section LeadingRuns.

Variable A : Type.
Variable eqb : A -> A -> bool.
Hypothesis eqb_eq : forall a b, eqb a b = true <-> a = b.
Variable zero : A.

Lemma countLeading_repeat (count : nat) (rest : list A) :
  countLeading eqb zero (repeat zero count ++ rest) = count + countLeading eqb zero rest.
Proof.
  induction count as [|count IH]; simpl; auto.
  rewrite (proj2 (eqb_eq zero zero) eq_refl), IH. reflexivity.
Qed.

Lemma countLeading_split (items : list A) :
  items = repeat zero (countLeading eqb zero items)
          ++ skipn (countLeading eqb zero items) items /\
  hd_error (skipn (countLeading eqb zero items) items) <> Some zero.
Proof.
  induction items as [|item items [IHsplit IHhead]]; simpl.
  - split; [reflexivity|discriminate].
  - destruct (eqb zero item) eqn:Heq; simpl.
    + apply eqb_eq in Heq. subst item. split; [f_equal; exact IHsplit|exact IHhead].
    + split; [reflexivity|]. intros [= ->].
      rewrite (proj2 (eqb_eq zero zero) eq_refl) in Heq. discriminate.
Qed.

Lemma countLeading_none (items : list A) :
  hd_error items <> Some zero -> countLeading eqb zero items = 0.
Proof.
  destruct items as [|item items]; simpl; auto.
  destruct (eqb zero item) eqn:Heq; auto.
  apply eqb_eq in Heq. subst. congruence.
Qed.

End LeadingRuns.

Section Alphabet.

Variable alphabet : JsString.

Lemma indexOf_some (letters : JsString) (char : ascii) :
  In char letters ->
  exists index, indexOf letters char = Some index /\
                nth_error letters index = Some char /\ index < length letters.
Proof.
  induction letters as [|a letters IH]; simpl; [contradiction|].
  intros Hin. destruct (Ascii.eqb_spec a char) as [->|Hne].
  - exists 0. simpl. repeat split; lia.
  - destruct Hin as [Heq|Hin]; [congruence|].
    destruct (IH Hin) as (index & Hindex & Hnth & Hlt).
    exists (S index). rewrite Hindex. simpl. repeat split; auto; lia.
Qed.

Lemma indexOf_none (letters : JsString) (char : ascii) :
  indexOf letters char = None <-> ~ In char letters.
Proof.
  induction letters as [|a letters IH]; simpl.
  - tauto.
  - destruct (Ascii.eqb_spec a char) as [->|Hne].
    + split; [discriminate|tauto].
    + destruct (indexOf letters char) as [index|]; simpl.
      * split; [discriminate|]. intros H.
        assert (Hout : ~ In char letters) by tauto.
        apply IH in Hout. discriminate.
      * split; [|reflexivity]. intros _ [Heq|Hin]; [congruence|].
        apply (proj1 IH eq_refl Hin).
Qed.

Lemma findInvalidCharacter_none (value : JsString) :
  forall position,
    findInvalidCharacter alphabet value position = None <-> Valid alphabet value.
Proof.
  unfold Valid.
  induction value as [|char value IH]; intros position; simpl.
  - split; auto.
  - destruct (indexOf alphabet char) as [index|] eqn:Hindex.
    + rewrite IH. split.
      * intros H. constructor; auto.
        destruct (in_dec ascii_dec char alphabet) as [Hin|Hout]; auto.
        apply indexOf_none in Hout. congruence.
      * intros H. inversion H; auto.
    + split; [discriminate|]. intros H. inversion H as [|? ? Hin _]; subst.
      apply indexOf_none in Hindex. contradiction.
Qed.

(** What the check reports is the first character that is not of the
    alphabet, and where it is. *)
Lemma findInvalidCharacter_some (value : JsString) :
  forall position char found,
    findInvalidCharacter alphabet value position = Some (char, found) ->
    position <= found /\
    nth_error value (found - position) = Some char /\
    ~ In char alphabet /\
    Valid alphabet (firstn (found - position) value).
Proof.
  unfold Valid.
  induction value as [|first value IH]; intros position char found; simpl.
  - discriminate.
  - destruct (indexOf alphabet first) as [index|] eqn:Hindex.
    + intros H. destruct (IH _ _ _ H) as (Hle & Hnth & Hout & Hbefore).
      replace (found - position) with (S (found - S position)) by lia.
      simpl. repeat split; auto; try lia.
      constructor; auto.
      destruct (in_dec ascii_dec first alphabet) as [Hin|Hno]; auto.
      apply indexOf_none in Hno. congruence.
    + intros [= <- <-]. rewrite Nat.sub_diag. simpl.
      repeat split; auto. apply indexOf_none; assumption.
Qed.

Lemma findInvalidCharacter_found (value : JsString) :
  forall position,
    (exists char, In char value /\ ~ In char alphabet) ->
    exists char found, findInvalidCharacter alphabet value position = Some (char, found).
Proof.
  intros position (char & Hin & Hout).
  destruct (findInvalidCharacter alphabet value position) as [[c p]|] eqn:Hfind.
  - exists c, p; reflexivity.
  - apply findInvalidCharacter_none in Hfind.
    unfold Valid in Hfind. rewrite Forall_forall in Hfind.
    exfalso. apply Hout. apply Hfind. assumption.
Qed.

Lemma getBigIntFromBaseX_digits (value : JsString) :
  getBigIntFromBaseX value alphabet
  = fromDigits (N.of_nat (length alphabet)) (map (digitOf alphabet) value).
Proof.
  unfold getBigIntFromBaseX, fromDigits.
  generalize 0%N. induction value as [|char value IH]; intros start; simpl; auto.
Qed.

Lemma digits_in_base (value : JsString) :
  Valid alphabet value ->
  Forall (fun digit => (digit < N.of_nat (length alphabet))%N) (map (digitOf alphabet) value).
Proof.
  unfold Valid. induction 1 as [|char value Hin _ IH]; simpl; constructor; auto.
  unfold digitOf.
  destruct (indexOf_some alphabet char Hin) as (index & -> & _ & Hlt). lia.
Qed.

Lemma charsOfDigits_digits (value : JsString) :
  Valid alphabet value ->
  charsOfDigits alphabet (map (digitOf alphabet) value) = Ok value.
Proof.
  unfold Valid. induction 1 as [|char value Hin _ IH]; simpl; auto.
  unfold digitOf at 1.
  destruct (indexOf_some alphabet char Hin) as (index & -> & Hnth & _).
  rewrite Nat2N.id, Hnth, IH. reflexivity.
Qed.

Lemma encode_baseX (value : JsString) :
  encode (getBaseXEncoder alphabet) value = encodeBaseX alphabet value.
Proof.
  unfold encode, getEncodedSize, getBaseXEncoder; simpl.
  destruct (encodeBaseX alphabet value) as [encoded|e]; auto.
  unfold setBytes. simpl. rewrite repeat_length, Nat.leb_refl. simpl.
  rewrite skipn_all2 by (rewrite repeat_length; lia).
  rewrite app_nil_r. reflexivity.
Qed.

Lemma decode_baseX (bytes : Bytes) :
  decode (getBaseXDecoder alphabet) bytes = decodeBaseX alphabet bytes.
Proof.
  unfold decode, getBaseXDecoder; simpl.
  destruct (decodeBaseX alphabet bytes); reflexivity.
Qed.

End Alphabet.

Lemma toDigits_zero (base : N) : toDigits base 0 = Some [].
Proof. reflexivity. Qed.

Lemma digitOf_zero (zero : ascii) (letters : JsString) :
  digitOf (zero :: letters) zero = 0%N.
Proof.
  unfold digitOf; simpl. rewrite Ascii.eqb_refl. reflexivity.
Qed.

Lemma digitOf_other (zero char : ascii) (letters : JsString) :
  char <> zero -> In char (zero :: letters) ->
  digitOf (zero :: letters) char <> 0%N /\ 2 <= length (zero :: letters).
Proof.
  intros Hne Hin. unfold digitOf; simpl.
  destruct (Ascii.eqb_spec zero char) as [Heq|_]; [congruence|].
  destruct Hin as [Heq|Hin]; [congruence|].
  destruct (indexOf_some letters char Hin) as (index & -> & _ & Hlt).
  simpl. split; lia.
Qed.

Lemma valid_nil_alphabet (value : JsString) : Valid [] value -> value = [].
Proof.
  intros H. destruct value as [|char value]; auto.
  inversion H as [|? ? Hin _]. contradiction.
Qed.

(** Encoding then decoding gives the string back, whatever the alphabet;
    the bytes start with as many zeroes as the string with zero digits. *)
Lemma baseX_round_trip (alphabet value : JsString) :
  Valid alphabet value ->
  exists bytes,
    encodeBaseX alphabet value = Ok bytes /\
    countLeading N.eqb 0%N bytes = leadingZeroes alphabet value /\
    decodeBaseX alphabet bytes = Ok value.
Proof.
  intros Hvalid. unfold encodeBaseX.
  rewrite (proj2 (findInvalidCharacter_none alphabet value 0) Hvalid).
  destruct alphabet as [|zero letters].
  - rewrite (valid_nil_alphabet _ Hvalid). exists []. simpl. auto.
  - set (alphabet := zero :: letters) in *.
    set (base := N.of_nat (length alphabet)).
    destruct (countLeading_split ascii Ascii.eqb Ascii.eqb_eq zero value) as [Hsplit Hhead].
    set (count := countLeading Ascii.eqb zero value) in *.
    set (tail := skipn count value) in *.
    assert (Htail : Valid alphabet tail).
    { unfold Valid in *. rewrite Hsplit in Hvalid. apply Forall_app in Hvalid. tauto. }
    assert (Hdigits : map (digitOf alphabet) value = repeat 0%N count ++ map (digitOf alphabet) tail).
    { rewrite Hsplit at 1. rewrite map_app, map_repeat.
      unfold alphabet at 1. rewrite digitOf_zero. reflexivity. }
    rewrite getBigIntFromBaseX_digits, Hdigits, fromDigits_zeroes.
    fold base.
    destruct (toDigits_terminates 256 ltac:(lia) (fromDigits base (map (digitOf alphabet) tail)))
      as (tailBytes & -> & Hnumber & _ & Hnonzero).
    exists (repeat 0%N count ++ tailBytes).
    assert (Hcount : countLeading N.eqb 0%N (repeat 0%N count ++ tailBytes) = count).
    { rewrite (countLeading_repeat N N.eqb N.eqb_eq).
      rewrite (countLeading_none N N.eqb N.eqb_eq); [lia|].
      unfold NoLeadingZero in Hnonzero.
      destruct tailBytes; simpl in *; congruence. }
    split; [reflexivity|]. split; [exact Hcount|].
    unfold decodeBaseX. rewrite Hcount.
    rewrite skipn_app, repeat_length, Nat.sub_diag, skipn_all2 by (rewrite repeat_length; lia).
    cbn [app skipn].
    change (fold_left (fun sum byte => (sum * 256 + byte)%N) tailBytes 0%N)
      with (fromDigits 256 tailBytes).
    rewrite Hnumber. fold base.
    assert (Hback : toDigits base (fromDigits base (map (digitOf alphabet) tail))
                    = Some (map (digitOf alphabet) tail)).
    { destruct tail as [|char tail'] eqn:Htl.
      - apply toDigits_zero.
      - assert (Hchar : char <> zero) by (simpl in Hhead; congruence).
        assert (Hin : In char alphabet) by (inversion Htail; assumption).
        destruct (digitOf_other zero char letters Hchar Hin) as [Hdigit Hlen].
        apply toDigits_fromDigits.
        + unfold base. fold alphabet in Hlen. lia.
        + apply digits_in_base. exact Htail.
        + unfold NoLeadingZero. simpl. exact Hdigit. }
    rewrite Hback, <- Hdigits.
    apply charsOfDigits_digits. exact Hvalid.
Qed.

(** ** The leaves keep the contract *)

Lemma setBytes_slot (before slot after source : Bytes) :
  length slot = length source ->
  setBytes (before ++ slot ++ after) source (length before)
  = (before ++ source ++ after, Ok (length before + length source)).
Proof.
  intros Hlen. unfold setBytes.
  rewrite !length_app, Hlen.
  destruct (Nat.leb_spec (length before + length source)
                         (length before + (length source + length after))); [|lia].
  rewrite firstn_app, firstn_all, Nat.sub_diag. simpl. rewrite app_nil_r.
  rewrite skipn_app, skipn_all2 by lia. simpl.
  replace (length before + length source - length before) with (length slot) by lia.
  rewrite skipn_app, skipn_all, Nat.sub_diag. reflexivity.
Qed.

Lemma bytesEqb_refl (bytes : Bytes) : bytesEqb bytes bytes = true.
Proof.
  unfold bytesEqb. rewrite Nat.eqb_refl. simpl.
  induction bytes as [|b bytes IH]; simpl; auto.
  rewrite N.eqb_refl. exact IH.
Qed.

Lemma constant_encoder_lawful (constant : Bytes) (value : JsValue) :
  WritesPiece (getConstantEncoder constant) value constant.
Proof.
  split.
  - reflexivity.
  - intros before slot after Hlen. simpl. apply setBytes_slot; assumption.
Qed.

Lemma utf8_encoder_lawful (value : JsValue) :
  WritesPiece getUtf8Encoder value (map N_of_ascii (textOf value)).
Proof.
  split.
  - unfold getEncodedSize; simpl. rewrite length_map. reflexivity.
  - intros before slot after Hlen. simpl. apply setBytes_slot; assumption.
Qed.

Lemma utf8_decoder_relative : ReadsRelative getUtf8Decoder.
Proof.
  intros before bytes value newOffset. simpl. intros [= <- <-].
  rewrite skipn_app, skipn_all, Nat.sub_diag, length_app. reflexivity.
Qed.

Lemma constant_codec_consumes (hidden : JsValue) (constant : Bytes) :
  ConsumesPrefix hidden (getConstantCodec constant).
Proof.
  intros prefix Hencode before after. simpl in *.
  rewrite (lawful_encode _ _ _ _ (constant_encoder_lawful constant hidden)) in Hencode.
  injection Hencode as <-.
  exists JsUndefined.
  rewrite skipn_app, skipn_all, Nat.sub_diag. simpl.
  rewrite firstn_app, firstn_all, Nat.sub_diag. simpl.
  rewrite app_nil_r, bytesEqb_refl. reflexivity.
Qed.

(** ** The loops, cut in two *)

Section LoopsInTwo.

Variable V : Type.
Variable undefined : V.

Lemma writeItems_app (first second : list (Encoder V)) :
  forall index value bytes offset,
    writeItems undefined (first ++ second) index value bytes offset
    = match writeItems undefined first index value bytes offset with
      | (calls, (bytes', Ok offset')) =>
          let '(calls', out) :=
            writeItems undefined second (index + length first) value bytes' offset' in
          (calls ++ calls', out)
      | (calls, (bytes', Err e)) => (calls, (bytes', Err e))
      end.
Proof.
  induction first as [|item first IH]; intros index value bytes offset; simpl.
  - rewrite Nat.add_0_r.
    destruct (writeItems undefined second index value bytes offset); reflexivity.
  - destruct (write item (nth index value undefined) bytes offset) as [bytes' [offset'|e]];
      [|reflexivity].
    rewrite IH.
    replace (S index + length first) with (index + S (length first)) by lia.
    destruct (writeItems undefined first (S index) value bytes' offset')
      as [calls [bytes'' [offset''|e]]]; [|reflexivity].
    destruct (writeItems undefined second (index + S (length first)) value bytes'' offset'');
      reflexivity.
Qed.

(** What the loop does depends on the elements it reaches only. *)
Lemma writeItems_shift (items : list (Encoder V)) :
  forall index index' value value' bytes offset,
    (forall i, i < length items ->
               nth (index + i) value undefined = nth (index' + i) value' undefined) ->
    snd (writeItems undefined items index value bytes offset)
    = snd (writeItems undefined items index' value' bytes offset) /\
    length (fst (writeItems undefined items index value bytes offset))
    = length (fst (writeItems undefined items index' value' bytes offset)).
Proof.
  induction items as [|item items IH]; intros index index' value value' bytes offset Hsame;
    simpl; auto.
  pose proof (Hsame 0 ltac:(simpl; lia)) as Hhead. rewrite !Nat.add_0_r in Hhead.
  rewrite Hhead.
  destruct (write item (nth index' value' undefined) bytes offset) as [bytes' [offset'|e]];
    [|auto].
  rewrite !snd_let_pair, !fst_let_pair. simpl.
  destruct (IH (S index) (S index') value value' bytes' offset') as [Hsnd Hlen].
  - intros i Hi. specialize (Hsame (S i) ltac:(simpl; lia)).
    rewrite !Nat.add_succ_r in Hsame. exact Hsame.
  - split; [exact Hsnd|f_equal; exact Hlen].
Qed.

Lemma writeItems_one (item : Encoder V) (index : nat) (value : list V) bytes offset :
  snd (writeItems undefined [item] index value bytes offset)
  = write item (nth index value undefined) bytes offset.
Proof.
  simpl. destruct (write item (nth index value undefined) bytes offset) as [bytes' [o|e]];
    reflexivity.
Qed.

Lemma readItems_app (first second : list (Decoder V)) :
  forall index bytes offset values,
    snd (readItems (first ++ second) index bytes offset values)
    = match snd (readItems first index bytes offset values) with
      | Ok (values', offset') =>
          snd (readItems second (index + length first) bytes offset' values')
      | Err e => Err e
      end.
Proof.
  induction first as [|item first IH]; intros index bytes offset values; simpl.
  - rewrite Nat.add_0_r. reflexivity.
  - destruct (read item bytes offset) as [[newValue newOffset]|e]; [|reflexivity].
    rewrite !snd_let_pair, IH.
    replace (S index + length first) with (index + S (length first)) by lia.
    reflexivity.
Qed.

(** The values a loop of [read] is handed are kept in front of the ones
    it adds, and the index plays no part in what it returns. *)
Lemma readItems_from_scratch (items : list (Decoder V)) :
  forall index bytes offset values,
    snd (readItems items index bytes offset values)
    = match snd (readItems items 0 bytes offset []) with
      | Ok (decoded, offset') => Ok (values ++ decoded, offset')
      | Err e => Err e
      end.
Proof.
  induction items as [|item items IH]; intros index bytes offset values; simpl.
  - rewrite app_nil_r. reflexivity.
  - destruct (read item bytes offset) as [[newValue newOffset]|e]; [|reflexivity].
    rewrite !snd_let_pair.
    rewrite (IH (S index) bytes newOffset (values ++ [newValue])).
    rewrite (IH 1 bytes newOffset [newValue]).
    destruct (snd (readItems items 0 bytes newOffset [])) as [[decoded offset']|e];
      [|reflexivity].
    rewrite <- app_assoc. reflexivity.
Qed.

Lemma undefined_elements (count : nat) (rest : list V) (i : nat) :
  i < count -> nth i (repeat undefined count ++ rest) undefined = undefined.
Proof.
  intros Hi. rewrite app_nth1 by (rewrite repeat_length; exact Hi).
  apply nth_repeat.
Qed.

Lemma hiddenValue_repeat (prefixedEncoders : list (Encoder V)) (value : V) :
  hiddenValue undefined prefixedEncoders value
  = repeat undefined (length prefixedEncoders) ++ [value].
Proof.
  unfold hiddenValue. f_equal.
  induction prefixedEncoders; simpl; f_equal; auto.
Qed.

(** [write] of a hidden-prefix encoder: the prefixes write for
    [undefined] one after the other, then the encoder writes the value
    where they stopped. *)
Lemma hidden_write_unfold (encoder : Encoder V) (prefixedEncoders : list (Encoder V))
    (value : V) (bytes : Bytes) (offset : nat) :
  write (getHiddenPrefixEncoder undefined encoder prefixedEncoders) value bytes offset
  = match snd (writeItems undefined prefixedEncoders 0
                 (repeat undefined (length prefixedEncoders)) bytes offset) with
    | (bytes', Ok offset') => write encoder value bytes' offset'
    | (bytes', Err e) => (bytes', Err e)
    end.
Proof.
  unfold getHiddenPrefixEncoder, transformEncoder, getTupleEncoder; simpl.
  rewrite (tupleWrite_matching V undefined _ _ bytes offset
             (hiddenValue_length V undefined prefixedEncoders encoder value)).
  rewrite writeItems_app, hiddenValue_repeat.
  destruct (writeItems_shift prefixedEncoders 0 0
              (repeat undefined (length prefixedEncoders) ++ [value])
              (repeat undefined (length prefixedEncoders)) bytes offset) as [Hsame _].
  { intros i Hi. simpl. rewrite undefined_elements by exact Hi.
    rewrite nth_repeat. reflexivity. }
  destruct (writeItems undefined prefixedEncoders 0
              (repeat undefined (length prefixedEncoders) ++ [value]) bytes offset)
    as [calls [bytes' [offset'|e]]] eqn:Hrun;
    simpl in Hsame; rewrite <- Hsame; [|reflexivity].
  rewrite snd_let_pair, writeItems_one. simpl.
  rewrite <- (repeat_length undefined (length prefixedEncoders)) at 1.
  rewrite nth_middle. reflexivity.
Qed.

(** [read] of a hidden-prefix decoder: the prefixes read one after the
    other, then the decoder reads where they stopped, and what it reads is
    the result. *)
Lemma hidden_read_unfold (decoder : Decoder V) (prefixedDecoders : list (Decoder V))
    (bytes : Bytes) (offset : nat) :
  read (getHiddenPrefixDecoder undefined decoder prefixedDecoders) bytes offset
  = match snd (readItems prefixedDecoders 0 bytes offset []) with
    | Ok (_, offset') => read decoder bytes offset'
    | Err e => Err e
    end.
Proof.
  unfold getHiddenPrefixDecoder, transformDecoder, getTupleDecoder, tupleRead; simpl.
  rewrite readItems_app.
  destruct (snd (readItems prefixedDecoders 0 bytes offset [])) as [[values offset']|e];
    [|reflexivity].
  simpl. destruct (read decoder bytes offset') as [[value newOffset]|e]; [|reflexivity].
  simpl. rewrite length_app, Nat.add_sub. simpl. rewrite nth_middle. reflexivity.
Qed.

(** What the loop does, calls included, depends on the elements it
    reaches only. *)
Lemma writeItems_ext (items : list (Encoder V)) :
  forall index value value' bytes offset,
    (forall i, i < length items ->
               nth (index + i) value undefined = nth (index + i) value' undefined) ->
    writeItems undefined items index value bytes offset
    = writeItems undefined items index value' bytes offset.
Proof.
  induction items as [|item items IH]; intros index value value' bytes offset Hsame;
    simpl; auto.
  pose proof (Hsame 0 ltac:(simpl; lia)) as Hhead. rewrite !Nat.add_0_r in Hhead.
  rewrite Hhead.
  destruct (write item (nth index value' undefined) bytes offset) as [bytes' [offset'|e]];
    [|reflexivity].
  rewrite (IH (S index) value value' bytes' offset'); [reflexivity|].
  intros i Hi. specialize (Hsame (S i) ltac:(simpl; lia)).
  rewrite !Nat.add_succ_r in Hsame. exact Hsame.
Qed.

Lemma readItems_app_calls (first second : list (Decoder V)) :
  forall index bytes offset values,
    readItems (first ++ second) index bytes offset values
    = match readItems first index bytes offset values with
      | (calls, Ok (values', offset')) =>
          let '(calls', out) :=
            readItems second (index + length first) bytes offset' values' in
          (calls ++ calls', out)
      | (calls, Err e) => (calls, Err e)
      end.
Proof.
  induction first as [|item first IH]; intros index bytes offset values; simpl.
  - rewrite Nat.add_0_r.
    destruct (readItems second index bytes offset values); reflexivity.
  - destruct (read item bytes offset) as [[newValue newOffset]|e]; [|reflexivity].
    rewrite IH.
    replace (S index + length first) with (index + S (length first)) by lia.
    destruct (readItems first (S index) bytes newOffset (values ++ [newValue]))
      as [calls [[values' offset']|e]]; [|reflexivity].
    destruct (readItems second (index + S (length first)) bytes offset' values');
      reflexivity.
Qed.

Lemma firstn_snoc (A : Type) (items : list A) :
  forall k item, nth_error items k = Some item -> firstn (S k) items = firstn k items ++ [item].
Proof.
  induction items as [|first items IH]; intros [|k] item H; simpl in *; try discriminate.
  - injection H as ->. reflexivity.
  - f_equal. apply IH. exact H.
Qed.

(** The tuple of the first [k + 1] items does what the tuple of the first
    [k] items does, and then has item [k] write element [k] into the
    buffer they left, at the offset they returned. *)
Lemma tupleWrite_next (items : list (Encoder V)) (value : list V) (bytes : Bytes)
    (offset k : nat) (item : Encoder V) :
  length value = length items ->
  nth_error items k = Some item ->
  tupleWrite undefined (firstn (S k) items) (firstn (S k) value) bytes offset
  = match tupleWrite undefined (firstn k items) (firstn k value) bytes offset with
    | (calls, (bytes', Ok offset')) =>
        (calls ++ [{| callIndex := k; callOffset := offset';
                      callReturn :=
                        returned (snd (write item (nth k value undefined) bytes' offset')) |}],
         write item (nth k value undefined) bytes' offset')
    | (calls, (bytes', Err e)) => (calls, (bytes', Err e))
    end.
Proof.
  intros Hlen Hitem.
  assert (Hk : k < length items) by (apply nth_error_Some; congruence).
  assert (Hfirst : length (firstn k items) = k) by (rewrite length_firstn; lia).
  assert (Hvalues : length (firstn k value) = k) by (rewrite length_firstn; lia).
  rewrite (firstn_snoc _ items k item Hitem).
  rewrite (firstn_snoc _ value k (nth k value undefined))
    by (apply nth_error_nth'; lia).
  rewrite (tupleWrite_matching V undefined (firstn k items ++ [item]))
    by (rewrite !length_app; simpl; lia).
  rewrite (tupleWrite_matching V undefined (firstn k items)) by lia.
  rewrite writeItems_app.
  rewrite (writeItems_ext (firstn k items) 0
             (firstn k value ++ [nth k value undefined]) (firstn k value)).
  - destruct (writeItems undefined (firstn k items) 0 (firstn k value) bytes offset)
      as [calls [bytes' [offset'|e]]]; [|reflexivity].
    simpl. rewrite Hfirst. rewrite <- Hvalues at 1. rewrite nth_middle.
    destruct (write item (nth k value undefined) bytes' offset') as [bytes'' [offset''|e]];
      reflexivity.
  - intros i Hi. simpl. apply app_nth1. lia.
Qed.

(** The same for reading. *)
Lemma tupleRead_next (items : list (Decoder V)) (bytes : Bytes) (offset k : nat)
    (item : Decoder V) :
  nth_error items k = Some item ->
  tupleRead (firstn (S k) items) bytes offset
  = match tupleRead (firstn k items) bytes offset with
    | (calls, Ok (values, offset')) =>
        (calls ++ [{| callIndex := k; callOffset := offset';
                      callReturn := returnedRead (read item bytes offset') |}],
         match read item bytes offset' with
         | Ok (value, newOffset) => Ok (values ++ [value], newOffset)
         | Err e => Err e
         end)
    | (calls, Err e) => (calls, Err e)
    end.
Proof.
  intros Hitem.
  assert (Hk : k < length items) by (apply nth_error_Some; congruence).
  assert (Hfirst : length (firstn k items) = k) by (rewrite length_firstn; lia).
  unfold tupleRead.
  rewrite (firstn_snoc _ items k item Hitem), readItems_app_calls.
  destruct (readItems (firstn k items) 0 bytes offset []) as [calls [[values offset']|e]];
    [|reflexivity].
  simpl. rewrite Hfirst.
  destruct (read item bytes offset') as [[value newOffset]|e]; reflexivity.
Qed.

(** A run of reads that does not fail is what [read] of the tuple
    returns, and the other way round. *)
Lemma readItems_chain (items : list (Decoder V)) (bytes : Bytes) (offset : nat)
    (values : list V) (offset' : nat) :
  ReadChain items bytes offset values offset' ->
  forall index already, snd (readItems items index bytes offset already) = Ok (already ++ values, offset').
Proof.
  induction 1 as [bytes offset|item items bytes offset value offset' values offset'' Hread _ IH];
    intros index already; simpl.
  - rewrite app_nil_r. reflexivity.
  - rewrite Hread, snd_let_pair, IH, <- app_assoc. reflexivity.
Qed.

Lemma readItems_ok_chain (items : list (Decoder V)) :
  forall index bytes offset already result offset',
    snd (readItems items index bytes offset already) = Ok (result, offset') ->
    exists values, result = already ++ values /\ ReadChain items bytes offset values offset'.
Proof.
  induction items as [|item items IH]; intros index bytes offset already result offset'; simpl.
  - intros [= <- <-]. exists []. rewrite app_nil_r. split; [reflexivity|constructor].
  - destruct (read item bytes offset) as [[value newOffset]|e] eqn:Hread; [|discriminate].
    rewrite snd_let_pair. intros Hrun.
    destruct (IH _ _ _ _ _ _ Hrun) as (values & -> & Hchain).
    exists (value :: values). rewrite <- app_assoc. split; [reflexivity|].
    econstructor; eauto.
Qed.

Lemma readItems_err_chain (items : list (Decoder V)) :
  forall index bytes offset already e,
    snd (readItems items index bytes offset already) = Err e ->
    exists k item values offset',
      nth_error items k = Some item /\
      ReadChain (firstn k items) bytes offset values offset' /\
      read item bytes offset' = Err e.
Proof.
  induction items as [|item items IH]; intros index bytes offset already e; simpl.
  - discriminate.
  - destruct (read item bytes offset) as [[value newOffset]|e'] eqn:Hread.
    + rewrite snd_let_pair. intros Hrun.
      destruct (IH _ _ _ _ _ Hrun) as (k & failing & values & offset' & Hnth & Hchain & Herr).
      exists (S k), failing, (value :: values), offset'. simpl.
      split; [exact Hnth|]. split; [econstructor; eauto|exact Herr].
    + intros [= ->]. exists 0, item, [], offset. simpl.
      split; [reflexivity|]. split; [constructor|exact Hread].
Qed.

Lemma readChain_length (items : list (Decoder V)) bytes offset values offset' :
  ReadChain items bytes offset values offset' -> length values = length items.
Proof.
  induction 1; simpl; auto.
Qed.

End LoopsInTwo.

(** ** The spec's scenarios *)

Example scenario_tuple_encode :
  encode (getTupleEncoder JsUndefined [getUtf8Encoder; getU8Encoder])
         [JsText (list_ascii_of_string "Alice"); JsNumber 42%N]
  = Ok [65; 108; 105; 99; 101; 42]%N.
Proof. reflexivity. Qed.

Example scenario_hidden_prefix :
  encode (getHiddenPrefixEncoder JsUndefined getUtf8Encoder
            [getConstantEncoder [1; 2; 3]%N; getConstantEncoder [4; 5; 6]%N])
         (JsText (list_ascii_of_string "Hello"))
  = Ok [1; 2; 3; 4; 5; 6; 72; 101; 108; 108; 111]%N /\
  decode (getHiddenPrefixDecoder JsUndefined getUtf8Decoder
            [getConstantDecoder [1; 2; 3]%N; getConstantDecoder [4; 5; 6]%N])
         [1; 2; 3; 4; 5; 6; 72; 101; 108; 108; 111]%N
  = Ok (JsText (list_ascii_of_string "Hello")).
Proof. split; reflexivity. Qed.

Example scenario_hidden_prefix_wrong_constant :
  decode (getHiddenPrefixDecoder JsUndefined getUtf8Decoder
            [getConstantDecoder [1; 2; 3]%N; getConstantDecoder [4; 5; 6]%N])
         [1; 2; 3; 4; 5; 7; 72; 101; 108; 108; 111]%N
  = Err (OTHER_ERROR "INVALID_CONSTANT").
Proof. reflexivity. Qed.

Example scenario_base58_leading_ones :
  encode getBase58Encoder (list_ascii_of_string "11heLLo")
  = Ok [0; 0; 27; 106; 48; 112]%N /\
  decode getBase58Decoder [0; 0; 27; 106; 48; 112]%N = Ok (list_ascii_of_string "11heLLo").
Proof. split; vm_compute; reflexivity. Qed.

(** * The claims *)

(** C1.  Base-X keeps leading zero digits.  Over an alphabet whose zero
    digit is [zero], take [count] zero digits followed by a suffix of the
    alphabet that denotes a non-zero number.  Encoding succeeds, its bytes
    start with one 0x00 per leading zero digit of the string, and decoding
    these bytes gives the string back: [count] zero digits followed by the
    same suffix, so exactly [count] leading zero digits when the suffix
    does not itself start with one. *)
Theorem baseX_leading_zeroes_preserved
    (alphabet suffix : JsString) (zero : ascii) (count : nat) :
  hd_error alphabet = Some zero ->
  Valid alphabet suffix ->
  getBigIntFromBaseX suffix alphabet <> 0%N ->
  exists bytes decoded,
    encode (getBaseXEncoder alphabet) (repeat zero count ++ suffix) = Ok bytes /\
    countLeading N.eqb 0%N bytes = count + leadingZeroes alphabet suffix /\
    decode (getBaseXDecoder alphabet) bytes = Ok decoded /\
    decoded = repeat zero count ++ suffix /\
    leadingZeroes alphabet decoded = count + leadingZeroes alphabet suffix /\
    (hd_error suffix <> Some zero -> leadingZeroes alphabet decoded = count).
Proof.
  intros Hzero Hsuffix _.
  destruct alphabet as [|first letters]; [discriminate|].
  injection Hzero as ->.
  assert (Hruns : leadingZeroes (zero :: letters) (repeat zero count ++ suffix)
                  = count + leadingZeroes (zero :: letters) suffix)
    by apply (countLeading_repeat ascii Ascii.eqb Ascii.eqb_eq).
  assert (Hvalid : Valid (zero :: letters) (repeat zero count ++ suffix)).
  { apply Forall_app. split; auto.
    apply Forall_forall. intros char Hin. apply repeat_spec in Hin. subst. simpl; auto. }
  destruct (baseX_round_trip _ _ Hvalid) as (bytes & Hencode & Hcount & Hdecode).
  exists bytes, (repeat zero count ++ suffix).
  rewrite encode_baseX, decode_baseX.
  split; [exact Hencode|]. split; [congruence|]. split; [exact Hdecode|].
  split; [reflexivity|]. split; [exact Hruns|].
  intros Hhead. rewrite Hruns. unfold leadingZeroes.
  rewrite (countLeading_none ascii Ascii.eqb Ascii.eqb_eq _ _ Hhead). lia.
Qed.

Lemma baseX_leading_zeroes_preserved_witness :
  exists bytes decoded,
    encode (getBaseXEncoder BaseX.alphabet)
           (repeat "1"%char 3 ++ list_ascii_of_string "heLLo") = Ok bytes /\
    countLeading N.eqb 0%N bytes
    = 3 + leadingZeroes BaseX.alphabet (list_ascii_of_string "heLLo") /\
    decode (getBaseXDecoder BaseX.alphabet) bytes = Ok decoded /\
    decoded = repeat "1"%char 3 ++ list_ascii_of_string "heLLo" /\
    leadingZeroes BaseX.alphabet decoded
    = 3 + leadingZeroes BaseX.alphabet (list_ascii_of_string "heLLo") /\
    (hd_error (list_ascii_of_string "heLLo") <> Some "1"%char ->
     leadingZeroes BaseX.alphabet decoded = 3).
Proof.
  apply (baseX_leading_zeroes_preserved BaseX.alphabet (list_ascii_of_string "heLLo") "1"%char 3).
  - reflexivity.
  - apply (proj1 (findInvalidCharacter_none BaseX.alphabet _ 0)). reflexivity.
  - vm_compute. discriminate.
Defined.

(** C2.  A hidden-prefix codec round-trips.  For codecs that keep the
    contract of their kind (the encoders write their bytes at the offset
    they are given, the main decoder reads relative to its offset), if the
    main codec decodes what it encoded for [value] back to [value], and
    every prefix decoder consumes exactly the bytes its encoder produced,
    then the hidden-prefix codec decodes what it encoded for [value] back
    to [value]. *)
Theorem hidden_prefix_round_trip
    (V : Type) (undefined : V) (codec : Codec V V) (prefixedCodecs : list (Codec V V))
    (value : V) :
  LawfulOn (codecEncoder codec) value ->
  Forall (fun prefixCodec => LawfulOn (codecEncoder prefixCodec) undefined) prefixedCodecs ->
  ReadsRelative (codecDecoder codec) ->
  Forall (ConsumesPrefix undefined) prefixedCodecs ->
  (bytes <- encode (codecEncoder codec) value ;; decode (codecDecoder codec) bytes) = Ok value ->
  (bytes <- encode (codecEncoder (getHiddenPrefixCodec undefined codec prefixedCodecs)) value ;;
   decode (codecDecoder (getHiddenPrefixCodec undefined codec prefixedCodecs)) bytes)
  = Ok value.
Proof.
  intros [main Hmain] Hprefixes Hrelative Hconsume Hround.
  assert (Hencoders : Forall (fun prefixEncoder => LawfulOn prefixEncoder undefined)
                             (map (@codecEncoder V V) prefixedCodecs))
    by (apply Forall_map; exact Hprefixes).
  destruct (lawful_pieces V undefined _ Hencoders) as [prefixes Hlaw].
  rewrite (lawful_encode V _ _ _ Hmain) in Hround. simpl in Hround.
  unfold getHiddenPrefixCodec, combineCodec; simpl.
  rewrite (hidden_encode_lawful V undefined _ _ _ _ _ Hmain Hlaw). simpl.
  apply hidden_decode; auto.
  pose proof (prefixes_encode_lawful V undefined _ _ Hlaw) as Hbytes.
  clear - Hbytes. revert prefixes Hbytes.
  induction prefixedCodecs as [|prefixCodec others IH]; intros pieces H;
    inversion H; subst; constructor; auto.
Qed.

Lemma hidden_prefix_round_trip_witness :
  (bytes <- encode (codecEncoder
                      (getHiddenPrefixCodec JsUndefined getUtf8Codec
                         [getConstantCodec [1; 2; 3]%N; getConstantCodec [4; 5; 6]%N]))
                   (JsText (list_ascii_of_string "Hello")) ;;
   decode (codecDecoder
             (getHiddenPrefixCodec JsUndefined getUtf8Codec
                [getConstantCodec [1; 2; 3]%N; getConstantCodec [4; 5; 6]%N]))
          bytes)
  = Ok (JsText (list_ascii_of_string "Hello")).
Proof.
  apply (hidden_prefix_round_trip JsValue JsUndefined getUtf8Codec
           [getConstantCodec [1; 2; 3]%N; getConstantCodec [4; 5; 6]%N]
           (JsText (list_ascii_of_string "Hello"))).
  - exists (map N_of_ascii (list_ascii_of_string "Hello")).
    apply (utf8_encoder_lawful (JsText (list_ascii_of_string "Hello"))).
  - constructor; [exists [1; 2; 3]%N; apply constant_encoder_lawful|].
    constructor; [exists [4; 5; 6]%N; apply constant_encoder_lawful|].
    constructor.
  - exact utf8_decoder_relative.
  - constructor; [apply constant_codec_consumes|].
    constructor; [apply constant_codec_consumes|].
    constructor.
  - reflexivity.
Defined.

(** C3.  The bytes of a hidden-prefix encoder.  For encoders that keep the
    contract of their kind (each writes its bytes at the offset it is
    given and returns the offset that follows), the hidden-prefix encoder
    encodes [value] as what the prefix encoders encode for [undefined], in
    the order they were supplied, followed by what the main encoder
    encodes for [value]. *)
Theorem hidden_prefix_bytes
    (V : Type) (undefined : V) (encoder : Encoder V) (prefixedEncoders : list (Encoder V))
    (value : V) :
  LawfulOn encoder value ->
  Forall (fun prefixEncoder => LawfulOn prefixEncoder undefined) prefixedEncoders ->
  exists prefixes main,
    Forall2 (fun prefixEncoder prefix => encode prefixEncoder undefined = Ok prefix)
            prefixedEncoders prefixes /\
    encode encoder value = Ok main /\
    encode (getHiddenPrefixEncoder undefined encoder prefixedEncoders) value
    = Ok (concat prefixes ++ main).
Proof.
  intros [main Hmain] Hprefixes.
  destruct (lawful_pieces V undefined _ Hprefixes) as [prefixes Hlaw].
  exists prefixes, main.
  split; [apply prefixes_encode_lawful; assumption|].
  split; [apply lawful_encode; assumption|].
  apply hidden_encode_lawful; assumption.
Qed.

Lemma hidden_prefix_bytes_witness :
  exists prefixes main,
    Forall2 (fun prefixEncoder prefix => encode prefixEncoder JsUndefined = Ok prefix)
            [getConstantEncoder [1; 2; 3]%N; getConstantEncoder [4; 5; 6]%N] prefixes /\
    encode getUtf8Encoder (JsText (list_ascii_of_string "Hello")) = Ok main /\
    encode (getHiddenPrefixEncoder JsUndefined getUtf8Encoder
              [getConstantEncoder [1; 2; 3]%N; getConstantEncoder [4; 5; 6]%N])
           (JsText (list_ascii_of_string "Hello"))
    = Ok (concat prefixes ++ main).
Proof.
  apply (hidden_prefix_bytes JsValue JsUndefined getUtf8Encoder
           [getConstantEncoder [1; 2; 3]%N; getConstantEncoder [4; 5; 6]%N]
           (JsText (list_ascii_of_string "Hello"))).
  - exists (map N_of_ascii (list_ascii_of_string "Hello")).
    apply (utf8_encoder_lawful (JsText (list_ascii_of_string "Hello"))).
  - constructor; [exists [1; 2; 3]%N; apply constant_encoder_lawful|].
    constructor; [exists [4; 5; 6]%N; apply constant_encoder_lawful|].
    constructor.
Defined.

(** C4.  A tuple value with the wrong number of elements is refused before
    anything is written: [write] fails with the item-count-mismatch
    condition, which carries the expected and the actual count, no item
    was asked to write, and the buffer is the one that was passed in. *)
Theorem tuple_write_item_count_mismatch
    (V : Type) (undefined : V) (items : list (Encoder V)) (value : list V)
    (bytes : Bytes) (offset : nat) :
  length value <> length items ->
  write (getTupleEncoder undefined items) value bytes offset
  = (bytes, Err (INVALID_NUMBER_OF_ITEMS "tuple" (length items) (length value))) /\
  fst (tupleWrite undefined items value bytes offset) = [].
Proof.
  intros Hlen. unfold getTupleEncoder; simpl.
  rewrite (tupleWrite_mismatch V undefined items value bytes offset Hlen).
  split; reflexivity.
Qed.

Lemma tuple_write_item_count_mismatch_witness :
  write (getTupleEncoder JsUndefined [getUtf8Encoder; getU8Encoder])
        [JsText (list_ascii_of_string "Alice")] [7; 7; 7; 7; 7; 7]%N 0
  = ([7; 7; 7; 7; 7; 7]%N, Err (INVALID_NUMBER_OF_ITEMS "tuple" 2 1)) /\
  fst (tupleWrite JsUndefined [getUtf8Encoder; getU8Encoder]
         [JsText (list_ascii_of_string "Alice")] [7; 7; 7; 7; 7; 7]%N 0) = [].
Proof.
  apply (tuple_write_item_count_mismatch JsValue JsUndefined [getUtf8Encoder; getU8Encoder]
           [JsText (list_ascii_of_string "Alice")] [7; 7; 7; 7; 7; 7]%N 0).
  simpl. lia.
Defined.

(** C5.  The size of a tuple.  When every item is of fixed size the tuple
    is of fixed size, the sum of the sizes of its items; when every item
    has a maximum size the tuple has one, the sum of the maxima of its
    items (for a fixed item, its size); when an item is not fixed the tuple
    is not fixed; when an item has no maximum the tuple has none.  This
    holds for the encoder and for the decoder. *)
Theorem tuple_size_algebra
    (V : Type) (undefined : V) (encoders : list (Encoder V)) (decoders : list (Decoder V)) :
  ((forall sizes,
       map (fun item => getFixedSize (encoderSize item)) encoders = map Some sizes ->
       getFixedSize (encoderSize (getTupleEncoder undefined encoders)) = Some (list_sum sizes)) /\
   (forall sizes,
       map (fun item => getMaxSize (encoderSize item)) encoders = map Some sizes ->
       getMaxSize (encoderSize (getTupleEncoder undefined encoders)) = Some (list_sum sizes)) /\
   (In None (map (fun item => getFixedSize (encoderSize item)) encoders) ->
    getFixedSize (encoderSize (getTupleEncoder undefined encoders)) = None) /\
   (In None (map (fun item => getMaxSize (encoderSize item)) encoders) ->
    getMaxSize (encoderSize (getTupleEncoder undefined encoders)) = None)) /\
  ((forall sizes,
       map (fun item => getDecoderFixedSize (decoderSize item)) decoders = map Some sizes ->
       getDecoderFixedSize (decoderSize (getTupleDecoder decoders)) = Some (list_sum sizes)) /\
   (forall sizes,
       map (fun item => getDecoderMaxSize (decoderSize item)) decoders = map Some sizes ->
       getDecoderMaxSize (decoderSize (getTupleDecoder decoders)) = Some (list_sum sizes)) /\
   (In None (map (fun item => getDecoderFixedSize (decoderSize item)) decoders) ->
    getDecoderFixedSize (decoderSize (getTupleDecoder decoders)) = None) /\
   (In None (map (fun item => getDecoderMaxSize (decoderSize item)) decoders) ->
    getDecoderMaxSize (decoderSize (getTupleDecoder decoders)) = None)).
Proof.
  split.
  - apply (tuple_encoder_size V undefined encoders).
  - apply (tuple_decoder_size V decoders).
Qed.

Lemma tuple_size_algebra_witness :
  getFixedSize (encoderSize (getTupleEncoder JsUndefined
                               [getConstantEncoder [1; 2; 3]%N; getU8Encoder])) = Some 4 /\
  getMaxSize (encoderSize (getTupleEncoder JsUndefined
                             [getConstantEncoder [1; 2; 3]%N; getU8Encoder])) = Some 4 /\
  getDecoderFixedSize (decoderSize (getTupleDecoder [getUtf8Decoder; getU8Decoder])) = None /\
  getDecoderMaxSize (decoderSize (getTupleDecoder [getUtf8Decoder; getU8Decoder])) = None.
Proof.
  pose proof (tuple_size_algebra JsValue JsUndefined
                [getConstantEncoder [1; 2; 3]%N; getU8Encoder]
                [getUtf8Decoder; getU8Decoder]) as [[Hfixed [Hmax _]] [_ [_ [Hvariable Hunbounded]]]].
  split; [apply (Hfixed [3; 1]); reflexivity|].
  split; [apply (Hmax [3; 1]); reflexivity|].
  split; [apply Hvariable; simpl; auto|apply Hunbounded; simpl; auto].
Defined.

(** C6, as amended.  A tuple handles its items in the order they were
    declared, each with the element of its own position, each starting at
    the offset the previous one returned, the first at the offset the
    tuple was given; this holds for writing and for reading.  Precisely:
    the tuple of no item does nothing; the tuple of the first [k + 1]
    items does what the tuple of the first [k] items does and then, if
    they did not fail, has item [k] write element [k] into the buffer
    they left at the offset they returned (read at the offset they
    returned), the outcome of that item being the outcome of the whole;
    and when no item fails every item is called, once.  When no item
    returns an offset before the one it started at, the offsets the items
    start at never decrease, so the items take byte ranges that follow one
    another without overlap; the offsets strictly increase when every
    item returns an offset after the one it started at. *)
Theorem tuple_items_in_order
    (V : Type) (undefined : V) (encoders : list (Encoder V)) (decoders : list (Decoder V))
    (value : list V) (bytes : Bytes) (offset : nat) :
  length value = length encoders ->
  (tupleWrite undefined (firstn 0 encoders) (firstn 0 value) bytes offset
   = ([], (bytes, Ok offset)) /\
   (forall k item,
       nth_error encoders k = Some item ->
       tupleWrite undefined (firstn (S k) encoders) (firstn (S k) value) bytes offset
       = match tupleWrite undefined (firstn k encoders) (firstn k value) bytes offset with
         | (calls, (bytes', Ok offset')) =>
             (calls ++ [{| callIndex := k; callOffset := offset';
                           callReturn :=
                             returned (snd (write item (nth k value undefined)
                                              bytes' offset')) |}],
              write item (nth k value undefined) bytes' offset')
         | (calls, (bytes', Err e)) => (calls, (bytes', Err e))
         end) /\
   tupleWrite undefined (firstn (length encoders) encoders)
     (firstn (length encoders) value) bytes offset
   = tupleWrite undefined encoders value bytes offset /\
   (forall offset',
       snd (write (getTupleEncoder undefined encoders) value bytes offset) = Ok offset' ->
       length (fst (tupleWrite undefined encoders value bytes offset)) = length encoders) /\
   Chained 0 offset (fst (tupleWrite undefined encoders value bytes offset)) /\
   WritesOf undefined encoders value (fst (tupleWrite undefined encoders value bytes offset)) /\
   lastReturn offset (fst (tupleWrite undefined encoders value bytes offset))
   = returned (snd (write (getTupleEncoder undefined encoders) value bytes offset)) /\
   (NeverBackwards (fst (tupleWrite undefined encoders value bytes offset)) ->
    NonDecreasing (callOffsets (fst (tupleWrite undefined encoders value bytes offset)))) /\
   ((forall call offset',
        In call (fst (tupleWrite undefined encoders value bytes offset)) ->
        callReturn call = Some offset' -> callOffset call < offset') ->
    StrictlyIncreasing (callOffsets (fst (tupleWrite undefined encoders value bytes offset))))) /\
  (tupleRead (firstn 0 decoders) bytes offset = ([], Ok ([], offset)) /\
   (forall k item,
       nth_error decoders k = Some item ->
       tupleRead (firstn (S k) decoders) bytes offset
       = match tupleRead (firstn k decoders) bytes offset with
         | (calls, Ok (values, offset')) =>
             (calls ++ [{| callIndex := k; callOffset := offset';
                           callReturn := returnedRead (read item bytes offset') |}],
              match read item bytes offset' with
              | Ok (element, newOffset) => Ok (values ++ [element], newOffset)
              | Err e => Err e
              end)
         | (calls, Err e) => (calls, Err e)
         end) /\
   tupleRead (firstn (length decoders) decoders) bytes offset
   = tupleRead decoders bytes offset /\
   (forall out,
       read (getTupleDecoder decoders) bytes offset = Ok out ->
       length (fst (tupleRead decoders bytes offset)) = length decoders) /\
   Chained 0 offset (fst (tupleRead decoders bytes offset)) /\
   ReadsOf decoders bytes (fst (tupleRead decoders bytes offset)) /\
   lastReturn offset (fst (tupleRead decoders bytes offset))
   = returnedRead (read (getTupleDecoder decoders) bytes offset) /\
   (NeverBackwards (fst (tupleRead decoders bytes offset)) ->
    NonDecreasing (callOffsets (fst (tupleRead decoders bytes offset)))) /\
   ((forall call offset',
        In call (fst (tupleRead decoders bytes offset)) ->
        callReturn call = Some offset' -> callOffset call < offset') ->
    StrictlyIncreasing (callOffsets (fst (tupleRead decoders bytes offset))))).
Proof.
  intros Hlen. split.
  - split; [reflexivity|].
    split; [intros k item Hitem; apply tupleWrite_next; assumption|].
    split; [rewrite firstn_all, <- Hlen, firstn_all; reflexivity|].
    unfold getTupleEncoder; simpl.
    rewrite (tupleWrite_matching V undefined encoders value bytes offset Hlen).
    pose proof (writeItems_chained V undefined encoders 0 value bytes offset) as Hchain.
    split; [apply (writeItems_outcome V undefined encoders 0 value bytes offset)|].
    split; [exact Hchain|]. split.
    + intros call Hin.
      destruct (writeItems_calls V undefined encoders 0 value bytes offset call Hin)
        as (_ & item & bytes' & Hnth & Hret).
      rewrite Nat.sub_0_r in Hnth. exists item, bytes'. auto.
    + split; [apply (writeItems_outcome V undefined encoders 0 value bytes offset)|].
      split.
      * apply (chained_non_decreasing _ 0 offset Hchain).
      * apply (chained_strictly_increasing _ 0 offset Hchain).
  - split; [reflexivity|].
    split; [intros k item Hitem; apply tupleRead_next; assumption|].
    split; [rewrite firstn_all; reflexivity|].
    unfold getTupleDecoder, tupleRead; simpl.
    pose proof (readItems_chained V decoders 0 bytes offset []) as Hchain.
    split; [apply (readItems_outcome V decoders 0 bytes offset [])|].
    split; [exact Hchain|]. split.
    + intros call Hin.
      destruct (readItems_calls V decoders 0 bytes offset [] call Hin)
        as (_ & item & Hnth & Hret).
      rewrite Nat.sub_0_r in Hnth. exists item. auto.
    + split; [apply (readItems_outcome V decoders 0 bytes offset [])|].
      split.
      * apply (chained_non_decreasing _ 0 offset Hchain).
      * apply (chained_strictly_increasing _ 0 offset Hchain).
Qed.

Lemma tuple_items_in_order_witness :
  tupleWrite JsUndefined [getConstantEncoder [1; 2; 3]%N; getU8Encoder]
    [JsUndefined; JsNumber 42%N] [0; 0; 0; 0]%N 0
  = ([{| callIndex := 0; callOffset := 0; callReturn := Some 3 |};
      {| callIndex := 1; callOffset := 3; callReturn := Some 4 |}],
     ([1; 2; 3; 42]%N, Ok 4)) /\
  NonDecreasing (callOffsets
                   (fst (tupleWrite JsUndefined [getConstantEncoder [1; 2; 3]%N; getU8Encoder]
                           [JsUndefined; JsNumber 42%N] [0; 0; 0; 0]%N 0))) /\
  tupleRead [getConstantDecoder [1; 2; 3]%N; getU8Decoder] [1; 2; 3; 42]%N 0
  = ([{| callIndex := 0; callOffset := 0; callReturn := Some 3 |};
      {| callIndex := 1; callOffset := 3; callReturn := Some 4 |}],
     Ok ([JsUndefined; JsNumber 42%N], 4)) /\
  NonDecreasing (callOffsets
                   (fst (tupleRead [getConstantDecoder [1; 2; 3]%N; getU8Decoder]
                           [1; 2; 3; 42]%N 0))).
Proof.
  pose proof (tuple_items_in_order JsValue JsUndefined
                [getConstantEncoder [1; 2; 3]%N; getU8Encoder]
                [getConstantDecoder [1; 2; 3]%N; getU8Decoder]
                [JsUndefined; JsNumber 42%N] [0; 0; 0; 0]%N 0 eq_refl)
    as [(_ & Hnext & Hwhole & _ & _ & _ & _ & Hwrite & _) _].
  pose proof (tuple_items_in_order JsValue JsUndefined
                [getConstantEncoder [1; 2; 3]%N; getU8Encoder]
                [getConstantDecoder [1; 2; 3]%N; getU8Decoder]
                [JsUndefined; JsNumber 42%N] [1; 2; 3; 42]%N 0 eq_refl)
    as [_ (_ & Hnext' & Hwhole' & _ & _ & _ & _ & Hread & _)].
  split.
  - rewrite <- Hwhole. simpl length.
    rewrite (Hnext 1 getU8Encoder eq_refl), (Hnext 0 (getConstantEncoder [1; 2; 3]%N) eq_refl).
    reflexivity.
  - split.
    + apply Hwrite. intros call offset' Hin.
      vm_compute in Hin. destruct Hin as [<- | [<- | []]]; intros [= <-]; simpl; lia.
    + split.
      * rewrite <- Hwhole'. simpl length.
        rewrite (Hnext' 1 getU8Decoder eq_refl),
          (Hnext' 0 (getConstantDecoder [1; 2; 3]%N) eq_refl).
        reflexivity.
      * apply Hread. intros call offset' Hin.
        vm_compute in Hin. destruct Hin as [<- | [<- | []]]; intros [= <-]; simpl; lia.
Defined.

(** C6, as stated, fails: an item that takes no byte, here a string codec
    given the empty string and a constant codec of no bytes, leaves the
    next item at the offset it started at itself. *)
Lemma tuple_offsets_not_strictly_increasing :
  length [JsText []; JsNumber 42%N] = length [getUtf8Encoder; getU8Encoder] /\
  write (getTupleEncoder JsUndefined [getUtf8Encoder; getU8Encoder])
        [JsText []; JsNumber 42%N] [0]%N 0 = ([42]%N, Ok 1) /\
  callOffsets (fst (tupleWrite JsUndefined [getUtf8Encoder; getU8Encoder]
                      [JsText []; JsNumber 42%N] [0]%N 0)) = [0; 0] /\
  ~ StrictlyIncreasing
      (callOffsets (fst (tupleWrite JsUndefined [getUtf8Encoder; getU8Encoder]
                           [JsText []; JsNumber 42%N] [0]%N 0))) /\
  read (getTupleDecoder [getConstantDecoder []; getU8Decoder]) [42]%N 0
  = Ok ([JsUndefined; JsNumber 42%N], 1) /\
  ~ StrictlyIncreasing
      (callOffsets (fst (tupleRead [getConstantDecoder []; getU8Decoder] [42]%N 0))).
Proof.
  repeat split; try reflexivity; vm_compute; intros [H _]; lia.
Qed.

(** C7.  Base 58 of "heLLo" is the four bytes 1b 6a 30 70, and these four
    bytes decode to "heLLo". *)
Theorem base58_heLLo :
  encode getBase58Encoder (list_ascii_of_string "heLLo") = Ok [27; 106; 48; 112]%N /\
  decode getBase58Decoder [27; 106; 48; 112]%N = Ok (list_ascii_of_string "heLLo").
Proof.
  split; vm_compute; reflexivity.
Qed.

(** C8.  Base-X encoding fails with the invalid-character condition
    exactly when the string has a character that is not of the alphabet;
    the condition carries the first such character and its position; and
    encoding fails in no other way. *)
Theorem baseX_invalid_character (alphabet value : JsString) :
  ((exists char position,
       encode (getBaseXEncoder alphabet) value
       = Err (INVALID_ALPHABET_CHARACTER char position))
   <-> (exists char, In char value /\ ~ In char alphabet)) /\
  (forall char position,
      encode (getBaseXEncoder alphabet) value
      = Err (INVALID_ALPHABET_CHARACTER char position) ->
      nth_error value position = Some char /\
      ~ In char alphabet /\
      Valid alphabet (firstn position value)) /\
  (forall e,
      encode (getBaseXEncoder alphabet) value = Err e ->
      exists char position, e = INVALID_ALPHABET_CHARACTER char position).
Proof.
  rewrite encode_baseX. unfold encodeBaseX.
  destruct (findInvalidCharacter alphabet value 0) as [[char position]|] eqn:Hfind.
  - destruct (findInvalidCharacter_some alphabet value 0 char position Hfind)
      as (_ & Hnth & Hout & Hbefore).
    rewrite Nat.sub_0_r in Hnth, Hbefore.
    split; [|split].
    + split; [|intros _; exists char, position; reflexivity].
      intros _. exists char. split; auto. eapply nth_error_In; eauto.
    + intros c p [= <- <-]. auto.
    + intros e [= <-]. exists char, position; reflexivity.
  - destruct (toDigits_terminates 256 ltac:(lia) (getBigIntFromBaseX value alphabet))
      as (tailBytes & -> & _).
    split; [|split].
    + split; [intros (c & p & H); discriminate|].
      intros H. destruct (findInvalidCharacter_found alphabet value 0 H) as (c & p & Hc).
      congruence.
    + intros c p H; discriminate.
    + intros e H; discriminate.
Qed.

(** C9.  The tuple decoder checks no count.  When the reads of its items
    succeed, each where the one before it stopped, it returns the values
    they read, in the order of the items, one per item, and the offset
    where the last one stopped; whatever it returns is such a run of reads,
    so has one value per item; and when it fails, it fails with the error
    of the read of the first item that fails, the items before it having
    read, so never with an item-count mismatch of its own. *)
Theorem tuple_decoder_one_value_per_item
    (V : Type) (items : list (Decoder V)) (bytes : Bytes) (offset : nat) :
  (forall values newOffset,
      ReadChain items bytes offset values newOffset ->
      read (getTupleDecoder items) bytes offset = Ok (values, newOffset) /\
      length values = length items) /\
  (forall values newOffset,
      read (getTupleDecoder items) bytes offset = Ok (values, newOffset) ->
      ReadChain items bytes offset values newOffset /\
      length values = length items) /\
  (forall e,
      read (getTupleDecoder items) bytes offset = Err e ->
      exists k item values offset',
        nth_error items k = Some item /\
        ReadChain (firstn k items) bytes offset values offset' /\
        read item bytes offset' = Err e).
Proof.
  unfold getTupleDecoder, tupleRead; simpl.
  split; [|split].
  - intros values newOffset Hchain. split.
    + apply (readItems_chain V items bytes offset values newOffset Hchain 0 []).
    + apply (readChain_length V items bytes offset values newOffset Hchain).
  - intros values newOffset Hrun.
    destruct (readItems_ok_chain V items 0 bytes offset [] values newOffset Hrun)
      as (decoded & -> & Hchain).
    split; [exact Hchain|].
    apply (readChain_length V items bytes offset decoded newOffset Hchain).
  - intros e Hrun. apply (readItems_err_chain V items 0 bytes offset [] e Hrun).
Qed.

Lemma tuple_decoder_one_value_per_item_witness :
  read (getTupleDecoder [getU8Decoder; getUtf8Decoder]) [5; 65]%N 0
  = Ok ([JsNumber 5%N; JsText (list_ascii_of_string "A")], 2) /\
  length [JsNumber 5%N; JsText (list_ascii_of_string "A")]
  = length [getU8Decoder; getUtf8Decoder].
Proof.
  apply (proj1 (tuple_decoder_one_value_per_item JsValue [getU8Decoder; getUtf8Decoder]
                  [5; 65]%N 0)).
  eapply ReadChain_cons; [reflexivity|].
  eapply ReadChain_cons; [reflexivity|].
  apply ReadChain_nil.
Defined.

(** C10.  The tuple value a hidden-prefix encoder makes up has one element
    per prefix and one for the value, as many as the tuple has items: the
    count assertion of the tuple passes, [write] is the loop over the
    items, and when it fails it fails with the error of the [write] of one
    of the items, not with an item-count mismatch of the tuple. *)
Theorem hidden_prefix_count_always_matches
    (V : Type) (undefined : V) (encoder : Encoder V) (prefixedEncoders : list (Encoder V))
    (value : V) (bytes : Bytes) (offset : nat) :
  length (hiddenValue undefined prefixedEncoders value) = length (prefixedEncoders ++ [encoder]) /\
  length (prefixedEncoders ++ [encoder]) = length prefixedEncoders + 1 /\
  assertValidNumberOfItemsForCodec "tuple" (length (prefixedEncoders ++ [encoder]))
    (length (hiddenValue undefined prefixedEncoders value)) = Ok tt /\
  write (getHiddenPrefixEncoder undefined encoder prefixedEncoders) value bytes offset
  = snd (writeItems undefined (prefixedEncoders ++ [encoder]) 0
           (hiddenValue undefined prefixedEncoders value) bytes offset) /\
  (forall e,
      snd (write (getHiddenPrefixEncoder undefined encoder prefixedEncoders) value bytes offset)
      = Err e ->
      exists item element bytes' offset',
        In item (prefixedEncoders ++ [encoder]) /\
        snd (write item element bytes' offset') = Err e).
Proof.
  pose proof (hiddenValue_length V undefined prefixedEncoders encoder value) as Hlen.
  assert (Hwrite : write (getHiddenPrefixEncoder undefined encoder prefixedEncoders)
                         value bytes offset
                   = snd (writeItems undefined (prefixedEncoders ++ [encoder]) 0
                            (hiddenValue undefined prefixedEncoders value) bytes offset)).
  { unfold getHiddenPrefixEncoder, transformEncoder, getTupleEncoder; simpl.
    rewrite (tupleWrite_matching V undefined _ _ bytes offset Hlen). reflexivity. }
  split; [exact Hlen|]. split; [apply length_app|]. split.
  - unfold assertValidNumberOfItemsForCodec. rewrite Hlen, Nat.eqb_refl. reflexivity.
  - split; [exact Hwrite|].
    intros e. rewrite Hwrite. apply writeItems_error.
Qed.

(** * Further properties *)

(** ** Tuples and hidden prefixes of lawful codecs *)

Section LawfulCodecs.

Variable V : Type.
Variable undefined : V.

Lemma writeItems_app_snd (first second : list (Encoder V)) index value bytes offset :
  snd (writeItems undefined (first ++ second) index value bytes offset)
  = match snd (writeItems undefined first index value bytes offset) with
    | (bytes', Ok offset') =>
        snd (writeItems undefined second (index + length first) value bytes' offset')
    | (bytes', Err e) => (bytes', Err e)
    end.
Proof.
  rewrite writeItems_app.
  destruct (writeItems undefined first index value bytes offset)
    as [calls [bytes' [offset'|e]]]; simpl; [|reflexivity].
  destruct (writeItems undefined second (index + length first) value bytes' offset');
    reflexivity.
Qed.

Lemma tuple_size_sum (items : list (Encoder V)) (value : list V) :
  getEncodedSize value (getTupleEncoder undefined items)
  = list_sum (sizeOfItems undefined items 0 value).
Proof.
  unfold getEncodedSize, getTupleEncoder; simpl.
  destruct (sumCodecSizes (map (fun item => getFixedSize (encoderSize item)) items))
    as [fixedSize|] eqn:Hfixed.
  - apply (fixed_sum_sizes V undefined items 0 fixedSize 0 value Hfixed).
  - unfold tupleSizeFromValue. rewrite fold_add. reflexivity.
Qed.

Lemma sizeOfItems_app (first second : list (Encoder V)) :
  forall index value,
    sizeOfItems undefined (first ++ second) index value
    = sizeOfItems undefined first index value
      ++ sizeOfItems undefined second (index + length first) value.
Proof.
  induction first as [|item first IH]; intros index value; simpl.
  - rewrite Nat.add_0_r. reflexivity.
  - rewrite IH. replace (S index + length first) with (index + S (length first)) by lia.
    reflexivity.
Qed.

Lemma sizeOfItems_undefined (items : list (Encoder V)) :
  forall index value,
    (forall i, i < length items -> nth (index + i) value undefined = undefined) ->
    sizeOfItems undefined items index value
    = map (fun item => getEncodedSize undefined item) items.
Proof.
  induction items as [|item items IH]; intros index value Hundefined; simpl; auto.
  pose proof (Hundefined 0 ltac:(simpl; lia)) as Hhead. rewrite Nat.add_0_r in Hhead.
  rewrite Hhead. f_equal. apply IH.
  intros i Hi. specialize (Hundefined (S i) ltac:(simpl; lia)).
  rewrite Nat.add_succ_r in Hundefined. exact Hundefined.
Qed.

Lemma tuple_keeps_contract (items : list (Encoder V)) (value : list V) (pieces : list Bytes) :
  WritesAll items value pieces ->
  WritesPiece (getTupleEncoder undefined items) value (concat pieces).
Proof.
  intros Hlaw. split.
  - apply tuple_encoded_size; assumption.
  - intros before slot after Hlen.
    unfold getTupleEncoder; simpl.
    rewrite (tupleWrite_matching V undefined _ _ _ _ (writesAll_length V _ _ _ Hlaw)).
    apply (writeItems_lawful V undefined _ _ _ Hlaw [] before slot after Hlen).
Qed.

Lemma readItems_lawful (decoders : list (Decoder V)) (elements : list V) (pieces : list Bytes) :
  ReadsAll decoders elements pieces ->
  forall index before after values,
    snd (readItems decoders index (before ++ concat pieces ++ after) (length before) values)
    = Ok (values ++ elements, length before + length (concat pieces)).
Proof.
  induction 1 as [|item element piece items elements pieces Hitem _ IH];
    intros index before after values; simpl.
  - rewrite app_nil_r, Nat.add_0_r. reflexivity.
  - rewrite <- app_assoc, Hitem, snd_let_pair.
    pose proof (IH (S index) (before ++ piece) after (values ++ [element])) as Hrest.
    rewrite length_app, <- !app_assoc in Hrest. simpl in Hrest.
    rewrite Hrest, length_app. f_equal. f_equal. lia.
Qed.

Lemma tuple_decoder_keeps_contract (decoders : list (Decoder V)) (value : list V)
    (pieces : list Bytes) :
  ReadsAll decoders value pieces ->
  ReadsPiece (getTupleDecoder decoders) value (concat pieces).
Proof.
  intros Hlaw before after. unfold getTupleDecoder, tupleRead; simpl.
  apply (readItems_lawful _ _ _ Hlaw 0 before after []).
Qed.

Lemma reads_piece_decode (decoder : Decoder V) (element : V) (piece : Bytes) :
  ReadsPiece decoder element piece -> decode decoder piece = Ok element.
Proof.
  intros Hread. unfold decode.
  pose proof (Hread [] []) as H. simpl in H. rewrite app_nil_r in H.
  rewrite H. reflexivity.
Qed.

Lemma hidden_keeps_contract (encoder : Encoder V) (prefixedEncoders : list (Encoder V))
    (value : V) (main : Bytes) (prefixes : list Bytes) :
  WritesPiece encoder value main ->
  Forall2 (fun prefixEncoder prefix => WritesPiece prefixEncoder undefined prefix)
          prefixedEncoders prefixes ->
  WritesPiece (getHiddenPrefixEncoder undefined encoder prefixedEncoders) value
              (concat prefixes ++ main).
Proof.
  intros Hmain Hprefixes.
  assert (Hall : WritesAll (prefixedEncoders ++ [encoder])
                           (hiddenValue undefined prefixedEncoders value)
                           (prefixes ++ [main])).
  { unfold hiddenValue. apply writesAll_app.
    - apply writesAll_hidden; assumption.
    - constructor; [assumption|constructor]. }
  destruct (tuple_keeps_contract _ _ _ Hall) as [Hsize Hwrite].
  rewrite concat_app in Hsize, Hwrite. simpl in Hsize, Hwrite.
  rewrite app_nil_r in Hsize, Hwrite.
  split.
  - unfold getHiddenPrefixEncoder. rewrite hidden_encoded_size. exact Hsize.
  - exact Hwrite.
Qed.

Lemma hidden_decoder_keeps_contract (decoder : Decoder V) (prefixedDecoders : list (Decoder V))
    (value : V) (main : Bytes) (ignored : list V) (prefixes : list Bytes) :
  ReadsPiece decoder value main ->
  ReadsAll prefixedDecoders ignored prefixes ->
  ReadsPiece (getHiddenPrefixDecoder undefined decoder prefixedDecoders) value
             (concat prefixes ++ main).
Proof.
  intros Hmain Hprefixes before after.
  rewrite hidden_read_unfold.
  rewrite <- app_assoc.
  rewrite (readItems_lawful _ _ _ Hprefixes 0 before (main ++ after) []).
  pose proof (Hmain (before ++ concat prefixes) after) as Hread.
  rewrite length_app, <- app_assoc in Hread. rewrite Hread, length_app.
  f_equal. f_equal. lia.
Qed.

Lemma tuple_fixed_size (items : list (Encoder V)) :
  getFixedSize (encoderSize (getTupleEncoder undefined items))
  = sumCodecSizes (map (fun item => getFixedSize (encoderSize item)) items).
Proof.
  unfold getTupleEncoder; simpl.
  destruct (sumCodecSizes (map (fun item => getFixedSize (encoderSize item)) items));
    reflexivity.
Qed.

Lemma tuple_max_size (items : list (Encoder V)) :
  getMaxSize (encoderSize (getTupleEncoder undefined items))
  = sumCodecSizes (map (fun item => getMaxSize (encoderSize item)) items).
Proof.
  unfold getTupleEncoder; simpl.
  destruct (all_or_none (map (fun item => getFixedSize (encoderSize item)) items))
    as [Hany | [known Hall]].
  - rewrite (sumCodecSizes_any _ Hany). reflexivity.
  - rewrite Hall, sumCodecSizes_all. simpl.
    rewrite (fixed_items_max V items known Hall), sumCodecSizes_all. reflexivity.
Qed.

Lemma tuple_decoder_fixed_size (items : list (Decoder V)) :
  getDecoderFixedSize (decoderSize (getTupleDecoder items))
  = sumCodecSizes (map (fun item => getDecoderFixedSize (decoderSize item)) items).
Proof.
  unfold getTupleDecoder; simpl.
  destruct (sumCodecSizes (map (fun item => getDecoderFixedSize (decoderSize item)) items));
    reflexivity.
Qed.

Lemma tuple_decoder_max_size (items : list (Decoder V)) :
  getDecoderMaxSize (decoderSize (getTupleDecoder items))
  = sumCodecSizes (map (fun item => getDecoderMaxSize (decoderSize item)) items).
Proof.
  unfold getTupleDecoder; simpl.
  destruct (all_or_none (map (fun item => getDecoderFixedSize (decoderSize item)) items))
    as [Hany | [known Hall]].
  - rewrite (sumCodecSizes_any _ Hany). reflexivity.
  - rewrite Hall, sumCodecSizes_all. simpl.
    rewrite (fixed_decoders_max V items known Hall), sumCodecSizes_all. reflexivity.
Qed.

Lemma transform_sizes (tuple : Encoder (list V)) (unmap : V -> list V) :
  getFixedSize (encoderSize (transformEncoder tuple unmap)) = getFixedSize (encoderSize tuple) /\
  getMaxSize (encoderSize (transformEncoder tuple unmap)) = getMaxSize (encoderSize tuple).
Proof.
  unfold transformEncoder; simpl. destruct (encoderSize tuple); auto.
Qed.

Lemma transform_decoder_size (tuple : Decoder (list V)) (map : list V -> V) :
  decoderSize (transformDecoder tuple map) = decoderSize tuple.
Proof. reflexivity. Qed.

Lemma sumCodecSizes_one (size : option nat) : sumCodecSizes [size] = size.
Proof.
  destruct size; reflexivity.
Qed.

End LawfulCodecs.

Lemma u8_encoder_lawful (n : N) :
  (n < 256)%N -> WritesPiece getU8Encoder (JsNumber n) [n].
Proof.
  intros Hn. split.
  - reflexivity.
  - intros before slot after Hlen. simpl.
    destruct (N.ltb_spec n 256); [|lia].
    apply setBytes_slot; assumption.
Qed.

Lemma u8_decoder_reads (b : byte) : ReadsPiece getU8Decoder (JsNumber b) [b].
Proof.
  intros before after. simpl.
  rewrite nth_error_app2, Nat.sub_diag by lia. simpl.
  rewrite Nat.add_1_r. reflexivity.
Qed.

Lemma constant_decoder_reads (constant : Bytes) :
  ReadsPiece (getConstantDecoder constant) JsUndefined constant.
Proof.
  intros before after. simpl.
  rewrite skipn_app, skipn_all, Nat.sub_diag. simpl.
  rewrite firstn_app, firstn_all, Nat.sub_diag. simpl.
  rewrite app_nil_r, bytesEqb_refl. reflexivity.
Qed.

(** ** Further properties of the tuple *)

Lemma sizes_of_undefined (V : Type) (undefined : V) (items : list (Encoder V)) :
  map (fun pair => getEncodedSize (snd pair) (fst pair))
      (combine items (repeat undefined (length items)))
  = map (fun item => getEncodedSize undefined item) items.
Proof.
  induction items as [|item items IH]; simpl; [reflexivity|].
  rewrite IH. reflexivity.
Qed.

Lemma sizeOfItems_paired (V : Type) (undefined : V) (items : list (Encoder V)) :
  forall front rest,
    sizeOfItems undefined items (length front) (front ++ rest)
    = map (fun pair => getEncodedSize (snd pair) (fst pair))
          (combine items (rest ++ repeat undefined (length items - length rest))).
Proof.
  induction items as [|item items IH]; intros front rest; [reflexivity|].
  destruct rest as [|element rest].
  - rewrite app_nil_r.
    rewrite (sizeOfItems_undefined V undefined (item :: items) (length front) front)
      by (intros i Hi; apply nth_overflow; lia).
    rewrite Nat.sub_0_r. cbn [app]. rewrite sizes_of_undefined. reflexivity.
  - cbn [sizeOfItems]. rewrite nth_middle.
    replace (front ++ element :: rest) with ((front ++ [element]) ++ rest)
      by (rewrite <- app_assoc; reflexivity).
    replace (S (length front)) with (length (front ++ [element]))
      by (rewrite length_app; simpl; lia).
    rewrite IH. reflexivity.
Qed.

(** X1.  The size a tuple encoder announces for a value, fixed or not, is
    the sum of the sizes its items announce for the elements of the
    value, paired in order: the first item with the first element, and so
    on; an item the value has no element for is sized on [undefined], and
    the elements beyond the last item count for nothing. *)
Theorem tuple_encoded_size_is_sum
    (V : Type) (undefined : V) (items : list (Encoder V)) (value : list V) :
  getEncodedSize value (getTupleEncoder undefined items)
  = list_sum
      (map (fun pair => getEncodedSize (snd pair) (fst pair))
           (combine items (value ++ repeat undefined (length items - length value)))).
Proof.
  rewrite <- (sizeOfItems_paired V undefined items [] value). simpl.
  unfold getEncodedSize at 1. unfold getTupleEncoder; simpl.
  destruct (sumCodecSizes (map (fun item => getFixedSize (encoderSize item)) items))
    as [fixedSize|] eqn:Hfixed.
  - apply (fixed_sum_sizes V undefined items 0 fixedSize 0 value Hfixed).
  - unfold tupleSizeFromValue. apply fold_add.
Qed.

(** X2.  A tuple of encoders that keep the contract keeps it: where each
    item writes its piece for its element at the offset it is given, the
    tuple announces the length of the pieces put end to end, writes them
    at the offset it is given and nothing else, and returns the offset
    that follows them. *)
Theorem tuple_encoder_keeps_contract
    (V : Type) (undefined : V) (items : list (Encoder V)) (value : list V)
    (pieces : list Bytes) :
  WritesAll items value pieces ->
  WritesPiece (getTupleEncoder undefined items) value (concat pieces) /\
  encode (getTupleEncoder undefined items) value = Ok (concat pieces).
Proof.
  intros Hlaw. split.
  - apply tuple_keeps_contract; assumption.
  - apply tuple_encode_lawful; assumption.
Qed.

Lemma tuple_encoder_keeps_contract_witness :
  WritesPiece (getTupleEncoder JsUndefined [getConstantEncoder [1; 2; 3]%N; getU8Encoder])
              [JsUndefined; JsNumber 42%N] (concat [[1; 2; 3]; [42]]%N) /\
  encode (getTupleEncoder JsUndefined [getConstantEncoder [1; 2; 3]%N; getU8Encoder])
         [JsUndefined; JsNumber 42%N] = Ok (concat [[1; 2; 3]; [42]]%N).
Proof.
  apply (tuple_encoder_keeps_contract JsValue JsUndefined
           [getConstantEncoder [1; 2; 3]%N; getU8Encoder]
           [JsUndefined; JsNumber 42%N] [[1; 2; 3]; [42]]%N).
  constructor; [apply constant_encoder_lawful|].
  constructor; [apply u8_encoder_lawful; reflexivity|].
  constructor.
Defined.

(** X3.  A tuple of decoders that keep the contract keeps it: where each
    item reads its element from its piece, the tuple reads the elements,
    in order, from the pieces put end to end, wherever they are in the
    bytes, and returns the offset that follows them. *)
Theorem tuple_decoder_reads_pieces
    (V : Type) (decoders : list (Decoder V)) (value : list V) (pieces : list Bytes) :
  ReadsAll decoders value pieces ->
  ReadsPiece (getTupleDecoder decoders) value (concat pieces).
Proof.
  intros Hlaw before after. unfold getTupleDecoder, tupleRead; simpl.
  apply (readItems_lawful V _ _ _ Hlaw 0 before after []).
Qed.

Lemma tuple_decoder_reads_pieces_witness :
  ReadsPiece (getTupleDecoder [getConstantDecoder [1; 2; 3]%N; getU8Decoder])
             [JsUndefined; JsNumber 42%N] (concat [[1; 2; 3]; [42]]%N).
Proof.
  apply (tuple_decoder_reads_pieces JsValue [getConstantDecoder [1; 2; 3]%N; getU8Decoder]
           [JsUndefined; JsNumber 42%N] [[1; 2; 3]; [42]]%N).
  constructor; [apply constant_decoder_reads|].
  constructor; [apply u8_decoder_reads|].
  constructor.
Defined.

(** X4.  A tuple codec round-trips: where each item codec writes a piece
    for its element and reads the element back from that piece, decoding
    what the tuple codec encoded for the value gives the value. *)
Theorem tuple_codec_round_trip
    (V : Type) (undefined : V) (items : list (Codec V V)) (value : list V)
    (pieces : list Bytes) :
  WritesAll (map (@codecEncoder V V) items) value pieces ->
  ReadsAll (map (@codecDecoder V V) items) value pieces ->
  (bytes <- encode (codecEncoder (getTupleCodec undefined items)) value ;;
   decode (codecDecoder (getTupleCodec undefined items)) bytes)
  = Ok value.
Proof.
  intros Hwrite Hread. unfold getTupleCodec, combineCodec; simpl.
  rewrite (tuple_encode_lawful V undefined _ _ _ Hwrite). simpl.
  apply reads_piece_decode. apply tuple_decoder_keeps_contract. assumption.
Qed.

Lemma tuple_codec_round_trip_witness :
  (bytes <- encode (codecEncoder
                      (getTupleCodec JsUndefined [getConstantCodec [1; 2; 3]%N; getU8Codec]))
                   [JsUndefined; JsNumber 42%N] ;;
   decode (codecDecoder
             (getTupleCodec JsUndefined [getConstantCodec [1; 2; 3]%N; getU8Codec]))
          bytes)
  = Ok [JsUndefined; JsNumber 42%N].
Proof.
  apply (tuple_codec_round_trip JsValue JsUndefined
           [getConstantCodec [1; 2; 3]%N; getU8Codec]
           [JsUndefined; JsNumber 42%N] [[1; 2; 3]; [42]]%N).
  - constructor; [apply constant_encoder_lawful|].
    constructor; [apply u8_encoder_lawful; reflexivity|].
    constructor.
  - constructor; [apply constant_decoder_reads|].
    constructor; [apply u8_decoder_reads|].
    constructor.
Defined.

(** X5.  [write] of a tuple is not undone when an item fails.  When the
    first items write their pieces and the next item fails, the tuple
    fails with the error of that item, unchanged; the buffer is the one
    that item left, with the pieces of the items before it written; and
    the items after it are not asked to write. *)
Theorem tuple_write_stops_at_failing_item
    (V : Type) (undefined : V)
    (items : list (Encoder V)) (item : Encoder V) (others : list (Encoder V))
    (elements : list V) (element : V) (unwritten : list V) (pieces : list Bytes)
    (before slot after left : Bytes) (e : Error) :
  WritesAll items elements pieces ->
  length slot = length (concat pieces) ->
  length unwritten = length others ->
  write item element (before ++ concat pieces ++ after) (length before + length (concat pieces))
  = (left, Err e) ->
  write (getTupleEncoder undefined (items ++ item :: others))
        (elements ++ element :: unwritten) (before ++ slot ++ after) (length before)
  = (left, Err e) /\
  length (fst (tupleWrite undefined (items ++ item :: others)
                 (elements ++ element :: unwritten) (before ++ slot ++ after) (length before)))
  = length items + 1.
Proof.
  intros Hlaw Hslot Hrest Hfail.
  pose proof (writesAll_length V _ _ _ Hlaw) as Hlen.
  assert (Hmatch : length (elements ++ element :: unwritten)
                   = length (items ++ item :: others))
    by (rewrite !length_app; simpl; lia).
  unfold getTupleEncoder; simpl.
  rewrite (tupleWrite_matching V undefined _ _ _ _ Hmatch).
  rewrite writeItems_app.
  destruct (writeItems_shift V undefined items 0 0
              (elements ++ element :: unwritten) ([] ++ elements)
              (before ++ slot ++ after) (length before)) as [Hsnd Hcalls].
  { intros i Hi. simpl. rewrite app_nth1 by lia. reflexivity. }
  pose proof (writeItems_lawful V undefined _ _ _ Hlaw [] before slot after Hslot) as Hrun.
  simpl in Hrun. simpl in Hsnd, Hcalls. rewrite Hrun in Hsnd.
  pose proof (writeItems_outcome V undefined items 0 elements
                (before ++ slot ++ after) (length before)) as [_ Hall].
  simpl in Hall. rewrite Hrun in Hall. simpl in Hall.
  specialize (Hall _ eq_refl). rewrite Hall in Hcalls.
  destruct (writeItems undefined items 0 (elements ++ element :: unwritten)
              (before ++ slot ++ after) (length before)) as [calls [bytes' outcome]].
  simpl in Hsnd, Hcalls. injection Hsnd as -> ->.
  simpl. rewrite <- Hlen, nth_middle, Hfail. simpl.
  split; [reflexivity|]. rewrite length_app. simpl. lia.
Qed.

Lemma tuple_write_stops_at_failing_item_witness :
  write (getTupleEncoder JsUndefined
           ([getConstantEncoder [1; 2; 3]%N] ++ getU8Encoder :: [getU8Encoder]))
        ([JsUndefined] ++ JsNumber 300%N :: [JsNumber 7%N])
        ([9]%N ++ [0; 0; 0]%N ++ [0; 0]%N) (length [9]%N)
  = ([9; 1; 2; 3; 0; 0]%N, Err (OTHER_ERROR "NUMBER_OUT_OF_RANGE")) /\
  length (fst (tupleWrite JsUndefined
                 ([getConstantEncoder [1; 2; 3]%N] ++ getU8Encoder :: [getU8Encoder])
                 ([JsUndefined] ++ JsNumber 300%N :: [JsNumber 7%N])
                 ([9]%N ++ [0; 0; 0]%N ++ [0; 0]%N) (length [9]%N)))
  = length [getConstantEncoder [1; 2; 3]%N] + 1.
Proof.
  apply (tuple_write_stops_at_failing_item JsValue JsUndefined
           [getConstantEncoder [1; 2; 3]%N] getU8Encoder [getU8Encoder]
           [JsUndefined] (JsNumber 300%N) [JsNumber 7%N] [[1; 2; 3]%N]
           [9]%N [0; 0; 0]%N [0; 0]%N [9; 1; 2; 3; 0; 0]%N
           (OTHER_ERROR "NUMBER_OUT_OF_RANGE")).
  - constructor; [apply constant_encoder_lawful|constructor].
  - reflexivity.
  - reflexivity.
  - reflexivity.
Defined.

(** ** Further properties of the hidden prefix *)

(** X6.  The sizes of a hidden-prefix encoder and decoder are those of the
    prefixes and of the main one added up: the fixed size is the sum of
    the fixed sizes of the prefixes, in order, and of the main one, and
    there is none as soon as one of them has none; the same holds for the
    maximum size. *)
Theorem hidden_prefix_sizes
    (V : Type) (undefined : V) (encoder : Encoder V) (prefixedEncoders : list (Encoder V))
    (decoder : Decoder V) (prefixedDecoders : list (Decoder V)) :
  getFixedSize (encoderSize (getHiddenPrefixEncoder undefined encoder prefixedEncoders))
  = sumCodecSizes (map (fun item => getFixedSize (encoderSize item))
                       (prefixedEncoders ++ [encoder])) /\
  getMaxSize (encoderSize (getHiddenPrefixEncoder undefined encoder prefixedEncoders))
  = sumCodecSizes (map (fun item => getMaxSize (encoderSize item))
                       (prefixedEncoders ++ [encoder])) /\
  getDecoderFixedSize (decoderSize (getHiddenPrefixDecoder undefined decoder prefixedDecoders))
  = sumCodecSizes (map (fun item => getDecoderFixedSize (decoderSize item))
                       (prefixedDecoders ++ [decoder])) /\
  getDecoderMaxSize (decoderSize (getHiddenPrefixDecoder undefined decoder prefixedDecoders))
  = sumCodecSizes (map (fun item => getDecoderMaxSize (decoderSize item))
                       (prefixedDecoders ++ [decoder])).
Proof.
  unfold getHiddenPrefixEncoder, getHiddenPrefixDecoder.
  destruct (transform_sizes V (getTupleEncoder undefined (prefixedEncoders ++ [encoder]))
              (hiddenValue undefined prefixedEncoders)) as [-> ->].
  rewrite tuple_fixed_size, tuple_max_size, transform_decoder_size.
  rewrite tuple_decoder_fixed_size, tuple_decoder_max_size.
  repeat split; reflexivity.
Qed.

(** X7.  The size a hidden-prefix encoder announces for a value is the
    sum of the sizes the prefixes announce for [undefined] and of the
    size the main encoder announces for the value. *)
Theorem hidden_prefix_encoded_size
    (V : Type) (undefined : V) (encoder : Encoder V) (prefixedEncoders : list (Encoder V))
    (value : V) :
  getEncodedSize value (getHiddenPrefixEncoder undefined encoder prefixedEncoders)
  = list_sum (map (fun prefixEncoder => getEncodedSize undefined prefixEncoder)
                  prefixedEncoders)
    + getEncodedSize value encoder.
Proof.
  unfold getHiddenPrefixEncoder.
  rewrite hidden_encoded_size, tuple_size_sum, sizeOfItems_app, hiddenValue_repeat.
  rewrite sizeOfItems_undefined
    by (intros i Hi; simpl; apply undefined_elements; exact Hi).
  simpl. rewrite <- (repeat_length undefined (length prefixedEncoders)) at 1.
  rewrite nth_middle, list_sum_app. simpl. lia.
Qed.

(** X8.  With no prefix, a hidden-prefix encoder and decoder do what the
    main ones do: [write] and [read] return the same, and the sizes are
    the same. *)
Theorem hidden_prefix_without_prefixes
    (V : Type) (undefined : V) (encoder : Encoder V) (decoder : Decoder V)
    (value : V) (bytes : Bytes) (offset : nat) :
  write (getHiddenPrefixEncoder undefined encoder []) value bytes offset
  = write encoder value bytes offset /\
  read (getHiddenPrefixDecoder undefined decoder []) bytes offset
  = read decoder bytes offset /\
  getEncodedSize value (getHiddenPrefixEncoder undefined encoder [])
  = getEncodedSize value encoder /\
  getFixedSize (encoderSize (getHiddenPrefixEncoder undefined encoder []))
  = getFixedSize (encoderSize encoder) /\
  getMaxSize (encoderSize (getHiddenPrefixEncoder undefined encoder []))
  = getMaxSize (encoderSize encoder) /\
  getDecoderFixedSize (decoderSize (getHiddenPrefixDecoder undefined decoder []))
  = getDecoderFixedSize (decoderSize decoder) /\
  getDecoderMaxSize (decoderSize (getHiddenPrefixDecoder undefined decoder []))
  = getDecoderMaxSize (decoderSize decoder).
Proof.
  split; [rewrite hidden_write_unfold; reflexivity|].
  split; [rewrite hidden_read_unfold; reflexivity|].
  split.
  - unfold getHiddenPrefixEncoder.
    rewrite hidden_encoded_size, tuple_size_sum. simpl. lia.
  - unfold getHiddenPrefixEncoder, getHiddenPrefixDecoder.
    destruct (transform_sizes V (getTupleEncoder undefined ([] ++ [encoder]))
                (hiddenValue undefined [])) as [-> ->].
    rewrite tuple_fixed_size, tuple_max_size, transform_decoder_size.
    rewrite tuple_decoder_fixed_size, tuple_decoder_max_size.
    simpl map. rewrite !sumCodecSizes_one. repeat split; reflexivity.
Qed.

(** X9.  What a hidden-prefix decoder returns is what the main decoder
    read: the prefix decoders are run in order for the offset they leave,
    the values they read are dropped, and the value and the offset of the
    main decoder, read where the prefixes stopped, are the result; an
    error of a prefix decoder or of the main decoder is the error of the
    whole. *)
Theorem hidden_prefix_read_is_main_read
    (V : Type) (undefined : V) (decoder : Decoder V) (prefixedDecoders : list (Decoder V))
    (bytes : Bytes) (offset : nat) :
  read (getHiddenPrefixDecoder undefined decoder prefixedDecoders) bytes offset
  = match read (getTupleDecoder prefixedDecoders) bytes offset with
    | Ok (_, offset') => read decoder bytes offset'
    | Err e => Err e
    end.
Proof.
  rewrite hidden_read_unfold.
  unfold getTupleDecoder, tupleRead; simpl.
  destruct (snd (readItems prefixedDecoders 0 bytes offset [])) as [[values offset']|e];
    reflexivity.
Qed.

(** X10.  What a hidden-prefix encoder writes is what the prefixes write
    for [undefined], one after the other from the offset given, and then
    what the main encoder writes for the value where the prefixes
    stopped; a prefix that fails ends the write with its error, and the
    main encoder is not run. *)
Theorem hidden_prefix_write_is_prefixes_then_main
    (V : Type) (undefined : V) (encoder : Encoder V) (prefixedEncoders : list (Encoder V))
    (value : V) (bytes : Bytes) (offset : nat) :
  write (getHiddenPrefixEncoder undefined encoder prefixedEncoders) value bytes offset
  = match write (getTupleEncoder undefined prefixedEncoders)
            (repeat undefined (length prefixedEncoders)) bytes offset with
    | (bytes', Ok offset') => write encoder value bytes' offset'
    | (bytes', Err e) => (bytes', Err e)
    end.
Proof.
  rewrite hidden_write_unfold.
  unfold getTupleEncoder at 1; simpl.
  rewrite (tupleWrite_matching V undefined prefixedEncoders _ bytes offset
             (repeat_length undefined (length prefixedEncoders))).
  reflexivity.
Qed.

(** X11.  Hidden prefixes stack: a hidden-prefix encoder put under further
    prefixes writes what one hidden-prefix encoder with all the prefixes,
    the outer ones first, writes; and the decoders read the same. *)
Theorem hidden_prefix_stacks
    (V : Type) (undefined : V) (encoder : Encoder V) (decoder : Decoder V)
    (inner outer : list (Encoder V)) (innerDecoders outerDecoders : list (Decoder V))
    (value : V) (bytes : Bytes) (offset : nat) :
  write (getHiddenPrefixEncoder undefined
           (getHiddenPrefixEncoder undefined encoder inner) outer) value bytes offset
  = write (getHiddenPrefixEncoder undefined encoder (outer ++ inner)) value bytes offset /\
  read (getHiddenPrefixDecoder undefined
          (getHiddenPrefixDecoder undefined decoder innerDecoders) outerDecoders) bytes offset
  = read (getHiddenPrefixDecoder undefined decoder (outerDecoders ++ innerDecoders))
         bytes offset.
Proof.
  split.
  - rewrite !hidden_write_unfold, writeItems_app_snd.
    destruct (writeItems_shift V undefined outer 0 0
                (repeat undefined (length (outer ++ inner)))
                (repeat undefined (length outer)) bytes offset) as [-> _].
    { intros i Hi. simpl. rewrite !nth_repeat. reflexivity. }
    destruct (snd (writeItems undefined outer 0 (repeat undefined (length outer))
                     bytes offset)) as [bytes' [offset'|e]]; [|reflexivity].
    destruct (writeItems_shift V undefined inner (0 + length outer) 0
                (repeat undefined (length (outer ++ inner)))
                (repeat undefined (length inner)) bytes' offset') as [-> _].
    { intros i Hi. rewrite !nth_repeat. reflexivity. }
    rewrite hidden_write_unfold. reflexivity.
  - rewrite !hidden_read_unfold, readItems_app.
    destruct (snd (readItems outerDecoders 0 bytes offset [])) as [[values offset']|e];
      [|reflexivity].
    rewrite hidden_read_unfold.
    rewrite (readItems_from_scratch V innerDecoders (0 + length outerDecoders)
               bytes offset' values).
    destruct (snd (readItems innerDecoders 0 bytes offset' [])) as [[decoded offset'']|e];
      reflexivity.
Qed.

(** X12.  A hidden-prefix codec of codecs that keep the contract keeps
    it.  Where the prefix encoders write their pieces for [undefined] and
    the main encoder writes its piece for the value, the hidden-prefix
    encoder writes these pieces put end to end, at the offset it is given
    and nothing else; where moreover the prefix decoders read over their
    pieces and the main decoder reads the value from its piece, the
    hidden-prefix decoder reads the value from the pieces put end to end,
    wherever they are. *)
Theorem hidden_prefix_keeps_contract
    (V : Type) (undefined : V) (codec : Codec V V) (prefixedCodecs : list (Codec V V))
    (value : V) (main : Bytes) (ignored : list V) (prefixes : list Bytes) :
  WritesPiece (codecEncoder codec) value main ->
  Forall2 (fun prefixEncoder prefix => WritesPiece prefixEncoder undefined prefix)
          (map (@codecEncoder V V) prefixedCodecs) prefixes ->
  ReadsPiece (codecDecoder codec) value main ->
  ReadsAll (map (@codecDecoder V V) prefixedCodecs) ignored prefixes ->
  WritesPiece (codecEncoder (getHiddenPrefixCodec undefined codec prefixedCodecs)) value
              (concat prefixes ++ main) /\
  ReadsPiece (codecDecoder (getHiddenPrefixCodec undefined codec prefixedCodecs)) value
             (concat prefixes ++ main).
Proof.
  intros Hmain Hprefixes Hread Hskip.
  unfold getHiddenPrefixCodec, combineCodec; simpl. split.
  - apply hidden_keeps_contract; assumption.
  - apply (hidden_decoder_keeps_contract V undefined _ _ value main ignored prefixes);
      assumption.
Qed.

Lemma hidden_prefix_keeps_contract_witness :
  WritesPiece (codecEncoder (getHiddenPrefixCodec JsUndefined getU8Codec
                               [getConstantCodec [1; 2; 3]%N; getConstantCodec [4; 5; 6]%N]))
              (JsNumber 42%N) (concat [[1; 2; 3]; [4; 5; 6]]%N ++ [42]%N) /\
  ReadsPiece (codecDecoder (getHiddenPrefixCodec JsUndefined getU8Codec
                              [getConstantCodec [1; 2; 3]%N; getConstantCodec [4; 5; 6]%N]))
             (JsNumber 42%N) (concat [[1; 2; 3]; [4; 5; 6]]%N ++ [42]%N).
Proof.
  apply (hidden_prefix_keeps_contract JsValue JsUndefined getU8Codec
           [getConstantCodec [1; 2; 3]%N; getConstantCodec [4; 5; 6]%N]
           (JsNumber 42%N) [42]%N [JsUndefined; JsUndefined] [[1; 2; 3]; [4; 5; 6]]%N).
  - apply u8_encoder_lawful. reflexivity.
  - constructor; [apply constant_encoder_lawful|].
    constructor; [apply constant_encoder_lawful|].
    constructor.
  - apply u8_decoder_reads.
  - constructor; [apply constant_decoder_reads|].
    constructor; [apply constant_decoder_reads|].
    constructor.
Defined.

(** ** Further properties of base X *)

Lemma distinct_NoDup (letters : JsString) : distinct letters = true -> NoDup letters.
Proof.
  induction letters as [|a letters IH]; simpl; [constructor|].
  intros H. apply andb_prop in H. destruct H as [Hfresh Hrest].
  constructor; auto.
  intros Hin. apply negb_true_iff in Hfresh.
  assert (existsb (Ascii.eqb a) letters = true); [|congruence].
  apply existsb_exists. exists a. split; auto. apply Ascii.eqb_refl.
Qed.

Lemma indexOf_nth (letters : JsString) :
  NoDup letters ->
  forall index default, index < length letters ->
    indexOf letters (nth index letters default) = Some index.
Proof.
  induction 1 as [|a letters Hfresh _ IH]; intros index default Hindex; simpl in *.
  - lia.
  - destruct index as [|index].
    + rewrite Ascii.eqb_refl. reflexivity.
    + destruct (Ascii.eqb_spec a (nth index letters default)) as [Heq|_].
      * exfalso. apply Hfresh. rewrite Heq. apply nth_In. lia.
      * rewrite IH by lia. reflexivity.
Qed.

Section DecodedStrings.

Variable alphabet : JsString.
Variable zero : ascii.

Let charOf (digit : N) : ascii := nth (N.to_nat digit) alphabet zero.

Lemma charsOfDigits_total (digits : list N) :
  Forall (fun digit => (digit < N.of_nat (length alphabet))%N) digits ->
  charsOfDigits alphabet digits = Ok (map charOf digits).
Proof.
  induction 1 as [|digit digits Hdigit _ IH]; simpl; auto.
  rewrite (nth_error_nth' alphabet zero) by lia.
  rewrite IH. reflexivity.
Qed.

Lemma chars_valid (digits : list N) :
  Forall (fun digit => (digit < N.of_nat (length alphabet))%N) digits ->
  Valid alphabet (map charOf digits).
Proof.
  unfold Valid. induction 1 as [|digit digits Hdigit _ IH]; simpl; constructor; auto.
  apply nth_In. lia.
Qed.

Lemma digits_of_chars (digits : list N) :
  NoDup alphabet ->
  Forall (fun digit => (digit < N.of_nat (length alphabet))%N) digits ->
  map (digitOf alphabet) (map charOf digits) = digits.
Proof.
  intros Hdistinct. induction 1 as [|digit digits Hdigit _ IH]; simpl; auto.
  rewrite IH. f_equal. unfold digitOf, charOf.
  rewrite (indexOf_nth alphabet Hdistinct) by lia.
  apply N2Nat.id.
Qed.

End DecodedStrings.

(** X13.  Base X round-trips every string of the alphabet, the empty
    string and the strings of zero digits only included: decoding what
    was encoded for the string gives the string. *)
Theorem baseX_string_round_trip (alphabet value : JsString) :
  Valid alphabet value ->
  (bytes <- encode (getBaseXEncoder alphabet) value ;;
   decode (getBaseXDecoder alphabet) bytes)
  = Ok value.
Proof.
  intros Hvalid.
  destruct (baseX_round_trip alphabet value Hvalid) as (bytes & Hencode & _ & Hdecode).
  rewrite encode_baseX, Hencode. simpl.
  rewrite decode_baseX. exact Hdecode.
Qed.

Lemma baseX_string_round_trip_witness :
  (bytes <- encode (getBaseXEncoder BaseX.alphabet) (list_ascii_of_string "111") ;;
   decode (getBaseXDecoder BaseX.alphabet) bytes)
  = Ok (list_ascii_of_string "111").
Proof.
  apply (baseX_string_round_trip BaseX.alphabet (list_ascii_of_string "111")).
  apply (proj1 (findInvalidCharacter_none BaseX.alphabet _ 0)). reflexivity.
Defined.

(** X14.  Base X round-trips every buffer of bytes, over an alphabet of
    two characters or more, no two alike: decoding succeeds, on a string
    of the alphabet, and encoding that string gives the bytes back,
    leading zero bytes included. *)
Theorem baseX_bytes_round_trip (alphabet : JsString) (bytes : Bytes) :
  NoDup alphabet ->
  2 <= length alphabet ->
  Forall (fun b => (b < 256)%N) bytes ->
  exists value,
    decode (getBaseXDecoder alphabet) bytes = Ok value /\
    Valid alphabet value /\
    encode (getBaseXEncoder alphabet) value = Ok bytes.
Proof.
  intros Hdistinct Hlength Hbytes.
  rewrite decode_baseX.
  destruct alphabet as [|zero letters]; [simpl in Hlength; lia|].
  set (alphabet := zero :: letters) in *.
  set (base := N.of_nat (length alphabet)).
  assert (Hbase : (2 <= base)%N) by (unfold base; lia).
  destruct (countLeading_split N N.eqb N.eqb_eq 0%N bytes) as [Hsplit Hhead].
  set (count := countLeading N.eqb 0%N bytes) in *.
  assert (Htail : Forall (fun b => (b < 256)%N) (@skipn N count bytes)).
  { rewrite Hsplit in Hbytes. apply Forall_app in Hbytes. tauto. }
  assert (Hnonzero : NoLeadingZero (@skipn N count bytes)).
  { unfold NoLeadingZero.
    destruct (@skipn N count bytes) as [|b rest] eqn:Hrest; simpl; [lia|].
    intros Hb. apply Hhead. rewrite Hb. reflexivity. }
  unfold decodeBaseX. unfold byte, Bytes in *. fold count.
  set (tail := @skipn N count bytes) in *.
  change (fold_left (fun sum byte => (sum * 256 + byte)%N) tail 0%N)
    with (fromDigits 256 tail).
  fold base.
  destruct (toDigits_terminates base Hbase (fromDigits 256 tail))
    as (digits & -> & Hnumber & Hdigits & Hfirst).
  assert (Hall : Forall (fun digit => (digit < N.of_nat (length alphabet))%N)
                        (repeat 0%N count ++ digits)).
  { apply Forall_app. split; [|exact Hdigits].
    apply Forall_forall. intros d Hin. apply repeat_spec in Hin. rewrite Hin. lia. }
  rewrite (charsOfDigits_total alphabet zero _ Hall).
  eexists. split; [reflexivity|]. split; [apply chars_valid; exact Hall|].
  rewrite encode_baseX. unfold encodeBaseX.
  rewrite (proj2 (findInvalidCharacter_none alphabet _ 0) (chars_valid alphabet zero _ Hall)).
  rewrite getBigIntFromBaseX_digits, (digits_of_chars alphabet zero _ Hdistinct Hall).
  fold base. rewrite fromDigits_zeroes, Hnumber.
  rewrite (toDigits_fromDigits 256 ltac:(lia) tail Htail Hnonzero).
  rewrite map_app, map_repeat.
  assert (Hzero : nth (N.to_nat 0) alphabet zero = zero) by reflexivity.
  rewrite Hzero.
  unfold leadingZeroes, alphabet at 1.
  rewrite (countLeading_repeat ascii Ascii.eqb Ascii.eqb_eq).
  rewrite (countLeading_none ascii Ascii.eqb Ascii.eqb_eq).
  - rewrite Nat.add_0_r, <- Hsplit. reflexivity.
  - destruct digits as [|digit digits]; cbn [map hd_error]; [discriminate|].
    unfold NoLeadingZero in Hfirst; simpl in Hfirst.
    apply Forall_inv in Hdigits. rename Hdigits into Hdigit.
    intros [= Hsame].
    change (nth (N.to_nat digit) alphabet zero = zero) in Hsame.
    pose proof (indexOf_nth alphabet Hdistinct (N.to_nat digit) zero ltac:(lia)) as Hindex.
    rewrite Hsame in Hindex. unfold alphabet in Hindex. cbn [indexOf] in Hindex.
    rewrite Ascii.eqb_refl in Hindex. injection Hindex as Hindex. lia.
Qed.

Lemma baseX_bytes_round_trip_witness :
  exists value,
    decode (getBaseXDecoder BaseX.alphabet) [0; 0; 27; 106; 48; 112]%N = Ok value /\
    Valid BaseX.alphabet value /\
    encode (getBaseXEncoder BaseX.alphabet) value = Ok [0; 0; 27; 106; 48; 112]%N.
Proof.
  apply (baseX_bytes_round_trip BaseX.alphabet [0; 0; 27; 106; 48; 112]%N).
  - apply distinct_NoDup. reflexivity.
  - simpl. lia.
  - repeat constructor.
Defined.

(** ** The option type *)

Lemma isTheString_true (literal : string) (value : JsAny) :
  isTheString literal value = true <-> value = JString literal.
Proof.
  destruct value; simpl; try (split; [discriminate|intros H; discriminate]).
  rewrite String.eqb_eq. split; [intros ->; reflexivity|intros [= ->]; reflexivity].
Qed.

Lemma isOption_accepts_helper (input : JsAny) :
  isOption input = true ->
  exists fields,
    input = JObject fields /\
    ((lookup "__option" fields = Some (JString "Some") /\
      hasProperty "value" fields = true) \/
     lookup "__option" fields = Some (JString "None")).
Proof.
  unfold isOption.
  destruct input as [| |b|n|s|name|fields]; simpl;
    rewrite ?andb_false_r, ?andb_false_l; try discriminate.
  intros H. exists fields. split; [reflexivity|].
  unfold hasProperty, getProperty in *.
  destruct (lookup "__option" fields) as [tag|]; [|discriminate].
  simpl in H. apply orb_prop in H. destruct H as [H|H].
  - apply andb_prop in H. destruct H as [Htag Hvalue].
    apply isTheString_true in Htag. subst. left. auto.
  - apply isTheString_true in H. subst. right. reflexivity.
Qed.

(** X15.  What [isOption] accepts: the objects, and nothing else, whose
    [__option] is the string 'Some' and which have a [value], or whose
    [__option] is the string 'None'.  So [null], [undefined], numbers,
    strings, functions, an object with another [__option] and a 'Some'
    without a [value] are no options. *)
Theorem isOption_accepts (input : JsAny) :
  isOption input = true
  <-> exists fields,
        input = JObject fields /\
        ((lookup "__option" fields = Some (JString "Some") /\
          hasProperty "value" fields = true) \/
         lookup "__option" fields = Some (JString "None")).
Proof.
  split.
  - apply isOption_accepts_helper.
  - unfold isOption.
    intros (fields & -> & [[Htag Hvalue]|Htag]); simpl;
      unfold hasProperty, getProperty in *; rewrite Htag; simpl.
    + destruct (lookup "value" fields); [reflexivity|discriminate].
    + reflexivity.
Qed.

(** X16.  [some] and [none] make options, which [isSome] and [isNone]
    tell apart whatever the value is, an option included: [some(none())]
    is a 'Some', not a 'None'. *)
Theorem some_and_none_are_options (value : JsAny) :
  isOption (some value) = true /\
  isSome (some value) = Ok true /\
  isNone (some value) = Ok false /\
  isOption none = true /\
  isSome none = Ok false /\
  isNone none = Ok true /\
  isSome (some none) = Ok true /\
  some value <> none.
Proof.
  repeat split; try reflexivity.
  discriminate.
Qed.

(** X17.  On whatever [isOption] accepts, [isSome] and [isNone] do not
    throw and exactly one of them holds. *)
Theorem isSome_or_isNone (input : JsAny) :
  isOption input = true ->
  exists answer, isSome input = Ok answer /\ isNone input = Ok (negb answer).
Proof.
  intros H. apply isOption_accepts_helper in H.
  destruct H as (fields & -> & [[Htag _]|Htag]);
    unfold isSome, isNone; simpl; unfold getProperty; rewrite Htag; simpl.
  - exists true. auto.
  - exists false. auto.
Qed.

Lemma isSome_or_isNone_witness :
  exists answer,
    isSome (some (JNumber 42)) = Ok answer /\ isNone (some (JNumber 42)) = Ok (negb answer).
Proof.
  apply (isSome_or_isNone (some (JNumber 42))). reflexivity.
Defined.

(** ** The guards of the message signer *)

Lemma typeof_function (value : JsAny) :
  String.eqb (typeof value) "function" = true <-> exists name, value = JFunction name.
Proof.
  destruct value as [| |b|n|s|name|fields]; simpl; split;
    try discriminate; try (intros [other H]; discriminate).
  - intros _. exists name. reflexivity.
  - intros _. reflexivity.
Qed.

(** X18.  [assertIsMessagePartialSigner] returns exactly for the objects
    whose [signMessages] is a function, the ones [isMessagePartialSigner]
    accepts; for any other object, one without [signMessages] or with a
    [signMessages] that is no function, it throws the error that carries
    the [address] of the object. *)
Theorem assertIsMessagePartialSigner_guards (value : list (string * JsAny)) :
  (isMessagePartialSigner value = true
   <-> exists name, lookup "signMessages" value = Some (JFunction name)) /\
  (assertIsMessagePartialSigner value = Returns <-> isMessagePartialSigner value = true) /\
  (isMessagePartialSigner value = false ->
   assertIsMessagePartialSigner value
   = Throws (EXPECTED_MESSAGE_PARTIAL_SIGNER (getProperty "address" value))).
Proof.
  unfold assertIsMessagePartialSigner, isMessagePartialSigner, hasProperty, getProperty.
  destruct (lookup "signMessages" value) as [member|] eqn:Hmember; simpl.
  - split; [|split].
    + rewrite typeof_function. split.
      * intros [name ->]. exists name. reflexivity.
      * intros [name [= ->]]. exists name. reflexivity.
    + destruct (String.eqb (typeof member) "function"); simpl; split;
        try reflexivity; discriminate.
    + intros ->. reflexivity.
  - split; [|split].
    + split; [discriminate|intros [name H]; discriminate].
    + split; discriminate.
    + reflexivity.
Qed.
